(** * queue-bot: the roster loader, the group-overlap detector, the change
      tracker, the alert formatter and the polling cycle of [queue_bot.py]

    The Python module is embedded function by function.  Python [str] values
    are Rocq strings read as ASCII text, a Python [dict] is an association
    list that keeps its keys distinct and in insertion order (the order that
    [items()] iterates in), a Python [set] is a [gset string], and the module
    level globals ([netid_to_group], [group_to_members],
    [previous_groups_in_queue], [CHECK_INTERVAL]) are passed explicitly. *)

From Stdlib Require Import Ascii String ZArith.
From stdpp Require Import base list strings gmap pretty.

Set Default Proof Using "Type".

(** ** Python strings: [str.strip] and [str.lower] on ASCII text *)

Module PyStr.

(** [c.isspace()] for the ASCII range: tab, line feed, vertical tab, form
    feed, carriage return, the four separators 0x1c..0x1f, and space. *)
Definition isspace (c : ascii) : bool :=
  let n := N_of_ascii c in
  ((9 <=? n) && (n <=? 13) || (28 <=? n) && (n <=? 32))%N.

Definition lower_char (c : ascii) : ascii :=
  let n := N_of_ascii c in
  if ((65 <=? n) && (n <=? 90))%N then ascii_of_N (n + 32) else c.

(** [s.lower()] *)
Fixpoint lower (s : string) : string :=
  match s with
  | EmptyString => EmptyString
  | String c r => String (lower_char c) (lower r)
  end.

(** [s.lstrip()] *)
Fixpoint lstrip (s : string) : string :=
  match s with
  | EmptyString => EmptyString
  | String c r => if isspace c then lstrip r else s
  end.

(** [s.rstrip()]: a character is dropped when it is white space and
    nothing but white space follows it. *)
Fixpoint rstrip (s : string) : string :=
  match s with
  | EmptyString => EmptyString
  | String c r =>
      match rstrip r with
      | EmptyString => if isspace c then EmptyString else String c EmptyString
      | r' => String c r'
      end
  end.

(** [s.strip()] *)
Definition strip (s : string) : string := rstrip (lstrip s).

(** Truth value of a string: [if s:] holds for the non-empty ones. *)
Definition truthy (s : string) : bool :=
  match s with EmptyString => false | String _ _ => true end.

End PyStr.

(** ** Python dictionaries with string keys *)

Section dict.
Context {V : Type}.

Definition dict : Type := list (string * V).

(** [d.get(k)]; [None] when [k not in d]. *)
Fixpoint dict_get (d : dict) (k : string) : option V :=
  match d with
  | [] => None
  | (k', v) :: r => if decide (k = k') then Some v else dict_get r k
  end.

(** [k in d] *)
Definition dict_mem (d : dict) (k : string) : bool :=
  match dict_get d k with Some _ => true | None => false end.

(** [d[k] = v]: a key already present keeps its place, a new key goes
    last. *)
Fixpoint dict_set (d : dict) (k : string) (v : V) : dict :=
  match d with
  | [] => [(k, v)]
  | (k', v') :: r =>
      if decide (k = k') then (k, v) :: r else (k', v') :: dict_set r k v
  end.

(** The representation invariant: keys are pairwise distinct. *)
Definition dict_wf (d : dict) : Prop := NoDup d.*1.

End dict.

Arguments dict : clear implicits.

(** ** Roster Store: [load_groups_from_csv] *)

(** What [open] and [csv.reader] deliver to the loader: either the file
    cannot be opened, or the reader yields [rows] one by one and then either
    stops or raises ([fails]). *)
Inductive csv_source : Type :=
  | Unreadable
  | Reader (rows : list (list string)) (fails : bool).

(** The pair [netid_to_group, group_to_members]. *)
Definition views : Type := dict string * dict (list string).

Definition empty_views : views := ([], []).

(** [f"Group {group_idx}"] *)
Definition group_label (group_idx : nat) : string := "Group " +:+ pretty group_idx.

(** One turn of [for cell in row]. *)
Definition load_cell (group_id : string)
    (st : list string * dict string) (cell : string) : list string * dict string :=
  let '(members, netid_to_group) := st in
  if PyStr.truthy (PyStr.strip cell) then
    let netid := PyStr.lower (PyStr.strip cell) in
    (members ++ [netid], dict_set netid_to_group netid group_id)
  else st.

(** The body of [for group_idx, row in enumerate(csv_reader, 1)]. *)
Definition load_row (group_idx : nat) (row : list string) (vs : views) : views :=
  let group_id := group_label group_idx in
  let '(members, netid_to_group) := foldl (load_cell group_id) ([], vs.1) row in
  (netid_to_group,
   match members with
   | [] => vs.2
   | _ :: _ => dict_set vs.2 group_id members
   end).

Fixpoint load_rows (group_idx : nat) (rows : list (list string)) (vs : views) : views :=
  match rows with
  | [] => vs
  | row :: rest => load_rows (S group_idx) rest (load_row group_idx row vs)
  end.

(** The [try] block: the two dictionaries as they stand when the block is
    left, and whether it was left by an exception.  [open] may raise;
    [next(csv_reader)] raises when there is no header row to read
    ([StopIteration], or the reader's own error); after that the only
    statement that can raise is the fetch of the next row by the [for]
    loop, so an error falls between two rows. *)
Definition load_try (src : csv_source) : views * bool :=
  match src with
  | Unreadable => (empty_views, true)
  | Reader [] _ => (empty_views, true)
  | Reader (headers :: rows) fails => (load_rows 1 rows empty_views, fails)
  end.

(** [load_groups_from_csv]: the [except] clause only prints, and the
    [return] after it hands back the two dictionaries whatever happened. *)
Definition load_groups_from_csv (src : csv_source) : views := (load_try src).1.


(** ** Group-Overlap Detector: [check_group_members_in_queue] *)

(** [d[k].append(x)], an update of the list stored under [k]; the program
    only does this for a key it has just made sure is present. *)
Definition dict_append (d : dict (list string)) (k x : string) : dict (list string) :=
  match dict_get d k with
  | Some l => dict_set d k (l ++ [x])
  | None => d
  end.

(** [{k: v for k, v in d.items() if P k v}] *)
Definition dict_filter {V} (P : string → V → bool) (d : dict V) : dict V :=
  foldl (λ acc kv, if P kv.1 kv.2 then dict_set acc kv.1 kv.2 else acc) [] d.

(** One turn of [for netid in netids], on the pair
    [(group_count, groups_with_multiple_members)]. *)
Definition detect_step (netid_to_group : dict string)
    (st : dict nat * dict (list string)) (netid : string)
    : dict nat * dict (list string) :=
  match dict_get netid_to_group netid with
  | Some group_id =>
      let group_count :=
        dict_set st.1 group_id (default 0 (dict_get st.1 group_id) + 1) in
      let groups :=
        if dict_mem st.2 group_id then st.2 else dict_set st.2 group_id [] in
      (group_count, dict_append groups group_id netid)
  | None => st
  end.

Definition check_group_members_in_queue (netids : list string)
    (netid_to_group : dict string) (group_to_members : dict (list string))
    : dict (list string) :=
  let groups_with_multiple_members :=
    (foldl (detect_step netid_to_group) ([], []) netids).2 in
  dict_filter (λ _ members, bool_decide (1 < length members))
    groups_with_multiple_members.

(** ** Change Tracker: the [new_groups] loop of [check_queue_for_groups] *)

(** [s.issuperset(t)] *)
Definition issuperset (s t : gset string) : bool := bool_decide (t ⊆ s).

Definition new_groups_step (previous_groups_in_queue : dict (list string))
    (new_groups : dict (list string)) (item : string * list string)
    : dict (list string) :=
  let '(group_id, members) := item in
  match dict_get previous_groups_in_queue group_id with
  | None => dict_set new_groups group_id members
  | Some prev =>
      let prev_members : gset string := list_to_set prev in
      let current_members : gset string := list_to_set members in
      if negb (issuperset prev_members current_members)
      then dict_set new_groups group_id members
      else new_groups
  end.

Definition new_groups (groups_in_queue previous_groups_in_queue : dict (list string))
    : dict (list string) :=
  foldl (new_groups_step previous_groups_in_queue) [] groups_in_queue.

(** ** Alert Formatter: [format_groups_message] *)

Definition nl : string := String (ascii_of_nat 10) EmptyString.

Definition no_groups_message : string :=
  "No groups with multiple members found in the queue.".

Definition alert_header : string :=
  "⚠️ **GROUPS WITH MULTIPLE MEMBERS IN QUEUE** ⚠️" +:+ nl +:+ nl.

(** [sep.join(l)] *)
Definition join (sep : string) (l : list string) : string := String.concat sep l.

(** One turn of [for group_id, members in groups_in_queue.items()]. *)
Definition format_step (group_to_members : dict (list string))
    (message : string) (item : string * list string) : string :=
  let '(group_id, members) := item in
  let message := message +:+ ("**" +:+ group_id +:+ "**:" +:+ nl) in
  let message :=
    message +:+ ("• Members in queue: " +:+ join ", " members +:+ nl) in
  let all_members := default [] (dict_get group_to_members group_id) in
  let not_in_queue := filter (λ m, m ∉ members) all_members in
  let message :=
    match not_in_queue with
    | [] => message
    | _ :: _ =>
        message +:+ ("• Members not in queue: " +:+ join ", " not_in_queue +:+ nl)
    end in
  message +:+ nl.

Definition format_groups_message
    (groups_in_queue group_to_members : dict (list string)) : string :=
  match groups_in_queue with
  | [] => no_groups_message
  | _ :: _ => foldl (format_step group_to_members) alert_header groups_in_queue
  end.

(** ** Queue entries: [get_questions_for_queue] and [extract_netid] *)

(** The part of a question object that the bot reads.  A field is [None]
    when its key is missing or its value is [null] (or, for [askedBy], an
    empty object), which the guards of [extract_netid] treat alike. *)
Record asker : Type := Asker { netid : option string }.
Record question : Type := Question { askedBy : option asker; topic : option string }.

(** What the [try] block of [get_questions_for_queue] meets: an exception
    (from [requests.get] or from [response.json()]), or a response with its
    status code and the questions of its body. *)
Inductive http_result : Type :=
  | Transport_error
  | Response (status_code : Z) (body : list question).

Definition get_questions_for_queue (r : http_result) : list question :=
  match r with
  | Response 200 body => body
  | Response _ _ => []
  | Transport_error => []
  end.

Definition extract_netid (q : question) : option string :=
  match askedBy q with
  | Some a => netid a
  | None => None
  end.

(** [netids] as [check_queue_for_groups] collects them: an entry is kept
    when [extract_netid] gives a non-empty string, and kept as it is. *)
Definition collect_netids (questions : list question) : list string :=
  omap (λ q, match extract_netid q with
             | Some n => if PyStr.truthy n then Some n else None
             | None => None
             end) questions.

(** ** Polling cycle: [check_queue_for_groups] *)

(** What one cycle reads from its surroundings.  [ALERT_CHANNEL_ID] is
    [int(os.getenv("ALERT_CHANNEL_ID", "0"))]: [None] when the text of the
    variable is no integer and [int] raises [ValueError].  [channel] is
    [bot.get_channel(alert_channel_id)]: [None] when there is no such
    channel, and otherwise what [channel.send] does with a message: [true]
    when it takes it, [false] when it raises. *)
Record cycle_env : Type := CycleEnv {
  DEFAULT_QUEUE_ID : string;
  ALERT_CHANNEL_ID : option Z;
  channel : option (string → bool);
  queue_service : string → http_result;
  netid_to_group : dict string;
  group_to_members : dict (list string)
}.

(** How one cycle ends: the messages it passed to [channel.send], whether
    it was left by an exception, and the value of
    [previous_groups_in_queue] afterwards. *)
Record cycle_result : Type := CycleResult {
  sent_to_channel : list string;
  cycle_raised : bool;
  state_after : dict (list string)
}.

(** The overlap result of the cycle, once the questions are in. *)
Definition groups_in_queue_of (env : cycle_env) (questions : list question)
    : dict (list string) :=
  check_group_members_in_queue (collect_netids questions)
    (netid_to_group env) (group_to_members env).

(** The alert step, [if new_groups: ...]: the messages passed to
    [channel.send], and whether the step raised ([int] on the channel id,
    or [channel.send]). *)
Definition dispatch (env : cycle_env) (new : dict (list string)) : list string * bool :=
  match new with
  | [] => ([], false)
  | _ :: _ =>
      match ALERT_CHANNEL_ID env with
      | None => ([], true)
      | Some alert_channel_id =>
          if bool_decide (0 < alert_channel_id)%Z then
            match channel env with
            | Some send =>
                let message := format_groups_message new (group_to_members env) in
                ([message], negb (send message))
            | None => ([], false)
            end
          else ([], false)
      end
  end.

(** One cycle.  An exception in the alert step leaves the function before
    its last line, so [previous_groups_in_queue] keeps its value. *)
Definition check_queue_for_groups (env : cycle_env)
    (previous_groups_in_queue : dict (list string)) : cycle_result :=
  let queue_id := DEFAULT_QUEUE_ID env in
  if negb (PyStr.truthy queue_id) then CycleResult [] false previous_groups_in_queue
  else
    match get_questions_for_queue (queue_service env queue_id) with
    | [] => CycleResult [] false previous_groups_in_queue
    | questions =>
        let groups_in_queue := groups_in_queue_of env questions in
        let alert := dispatch env (new_groups groups_in_queue previous_groups_in_queue) in
        CycleResult alert.1 alert.2
          (if alert.2 then previous_groups_in_queue else groups_in_queue)
    end.

(** One turn of the [while] loop of [check_queue_periodically], up to its
    sleep: the cycle runs only when a roster is loaded, and an exception of
    the cycle is caught by the loop, which then sleeps for a minute. *)
Definition check_queue_periodically_turn (env : cycle_env)
    (previous_groups_in_queue : dict (list string)) : cycle_result :=
  match group_to_members env with
  | [] => CycleResult [] false previous_groups_in_queue
  | _ :: _ => check_queue_for_groups env previous_groups_in_queue
  end.

(** ** Operator command: [set_interval_command] *)

(** The new value of [CHECK_INTERVAL] and the reply sent to the operator. *)
Definition set_interval_command (CHECK_INTERVAL seconds : Z) : Z * string :=
  if bool_decide (seconds < 60)%Z
  then (CHECK_INTERVAL, "Interval must be at least 60 seconds.")
  else (seconds, "Check interval set to " +:+ pretty seconds +:+ " seconds.").

(** ** Reference notions used to state the properties *)

(** The identifiers of [netids] that the roster assigns to group [g], in
    input order and with repetitions. *)
Definition queued_of (netid_to_group : dict string) (g : string)
    (netids : list string) : list string :=
  filter (λ n, dict_get netid_to_group n = Some g) netids.

(** The normal form that the roster loader gives a cell:
    [cell.strip().lower()]. *)
Definition normalize (s : string) : string := PyStr.lower (PyStr.strip s).

(** The rows that the reader handed over before the load ended, header
    included. *)
Definition rows_read (src : csv_source) : list (list string) :=
  match src with
  | Unreadable => []
  | Reader rows _ => rows
  end.

(** What the rows loaded so far guarantee, [group_idx] being the number of
    the next row: every key of [netid_to_group] is in normal form, names a
    group of an earlier row, and is listed under that group in
    [group_to_members]. *)
Definition roster_inv (group_idx : nat) (vs : views) : Prop :=
  ∀ n g, dict_get vs.1 n = Some g →
    normalize n = n
    ∧ (∃ j, j < group_idx ∧ g = group_label j)
    ∧ ∃ members, dict_get vs.2 g = Some members ∧ n ∈ members.


(** Whether the change tracker reports group [g] with current members
    [members]: it does when [g] is new, or when [members] has someone the
    previous list has not. *)
Definition reported (previous_groups_in_queue : dict (list string))
    (g : string) (members : list string) : bool :=
  match dict_get previous_groups_in_queue g with
  | None => true
  | Some prev => negb (issuperset (list_to_set prev) (list_to_set members))
  end.


(** The questions that a cycle in [env] gets for its queue. *)
Definition fetched (env : cycle_env) : list question :=
  get_questions_for_queue (queue_service env (DEFAULT_QUEUE_ID env)).

(** A line feed. *)
Definition line_feed : string := String "010"%char EmptyString.

(** A list of members written with a comma and a space between them: the
    first member, then for each further one ", " and the member. *)
Definition comma_separated (members : list string) : string :=
  match members with
  | [] => ""
  | m :: rest => foldl (λ line m', line +:+ ", " +:+ m') m rest
  end.

(** The block of one group in an alert, as the formatter is described:
    the label, the line of queued members, a line of the roster members that
    are not queued exactly when there is one, and an empty line. *)
Definition group_block (group_to_members : dict (list string))
    (item : string * list string) : string :=
  let roster_members := default [] (dict_get group_to_members item.1) in
  ("**" +:+ item.1 +:+ "**:" +:+ line_feed)
  +:+ ("• Members in queue: " +:+ comma_separated item.2 +:+ line_feed)
  +:+ (if bool_decide (Exists (λ m, m ∉ item.2) roster_members)
       then "• Members not in queue: "
            +:+ comma_separated (filter (λ m, m ∉ item.2) roster_members)
            +:+ line_feed
       else "")
  +:+ line_feed.

Definition concat_blocks (blocks : list string) : string :=
  foldr String.append "" blocks.

Definition previous_ex : dict (list string) := [("Group 1", ["alice"; "bob"])].

(** The members that a roster row contributes: its cells that are not blank,
    in normal form, in the order of the row. *)
Definition row_members (row : list string) : list string :=
  normalize <$> filter (λ cell, PyStr.strip cell ≠ "") row.

(** ** Roster commands: [on_ready] and [reload_groups_command] *)

(** What [on_ready] stores in [netid_to_group, group_to_members], and the
    number it prints in "Loaded N groups". *)
Definition on_ready (src : csv_source) : views * nat :=
  let vs := load_groups_from_csv src in
  (vs, length vs.2).


(** The data rows of a source: the rows read after the header. *)
Definition data_rows (src : csv_source) : list (list string) := tail (rows_read src).

(** ** Regular expressions: [re.match] for the pattern of [check_message_format] *)

Module PyRe.

(** The constructs the pattern uses, on ASCII text: a character class (a
    literal character is the class of that character), sequence,
    alternative and repetition; [Nul] matches nothing and only arises in
    derivatives. *)
Inductive regex : Type :=
  | Nul
  | Eps
  | Cls (p : ascii → bool)
  | Cat (r1 r2 : regex)
  | Alt (r1 r2 : regex)
  | Star (r : regex).

Definition Chr (c : ascii) : regex := Cls (Ascii.eqb c).

(** [r+] *)
Definition Plus (r : regex) : regex := Cat r (Star r).

(** A literal piece of the pattern. *)
Fixpoint Lit (s : string) : regex :=
  match s with
  | EmptyString => Eps
  | String c s' => Cat (Chr c) (Lit s')
  end.

(** [\d], on ASCII text (see [is_ascii] below) *)
Definition digit (c : ascii) : bool :=
  let n := N_of_ascii c in ((48 <=? n) && (n <=? 57))%N.

(** [.], without the DOTALL flag: anything but a line feed. *)
Definition dot (c : ascii) : bool := negb (Ascii.eqb c "010"%char).

(** [$] where it ends a pattern, without the MULTILINE flag: the end of the
    string, or the place before a line feed that is its last character. *)
Definition Dollar : regex := Alt Eps (Chr "010"%char).

Fixpoint nullable (r : regex) : bool :=
  match r with
  | Nul => false
  | Eps => true
  | Cls _ => false
  | Cat r1 r2 => nullable r1 && nullable r2
  | Alt r1 r2 => nullable r1 || nullable r2
  | Star _ => true
  end.

(** What is left of [r] after reading [c]. *)
Fixpoint deriv (c : ascii) (r : regex) : regex :=
  match r with
  | Nul => Nul
  | Eps => Nul
  | Cls p => if p c then Eps else Nul
  | Cat r1 r2 =>
      Alt (Cat (deriv c r1) r2) (if nullable r1 then deriv c r2 else Nul)
  | Alt r1 r2 => Alt (deriv c r1) (deriv c r2)
  | Star r1 => Cat (deriv c r1) (Star r1)
  end.

(** Whether the whole of [s] matches [r].  For a pattern of the form
    [^...$] this is whether [re.match] finds a match. *)
Fixpoint fullmatch (r : regex) (s : string) : bool :=
  match s with
  | EmptyString => nullable r
  | String c s' => fullmatch (deriv c r) s'
  end.

(** The strings of a regular expression. *)
Inductive lang : regex → string → Prop :=
  | lang_eps : lang Eps ""
  | lang_cls p c : p c = true → lang (Cls p) (String c "")
  | lang_cat r1 r2 s1 s2 : lang r1 s1 → lang r2 s2 → lang (Cat r1 r2) (s1 +:+ s2)
  | lang_alt_l r1 r2 s : lang r1 s → lang (Alt r1 r2) s
  | lang_alt_r r1 r2 s : lang r2 s → lang (Alt r1 r2) s
  | lang_star_nil r : lang (Star r) ""
  | lang_star_cons r s1 s2 :
      lang r s1 → lang (Star r) s2 → lang (Star r) (s1 +:+ s2).

End PyRe.

(** ** Format check: [check_message_format] *)

(** ["^\[(MP|Conceptual)\] ,Group \d+, Computer \d+ : .+$"] *)
Definition topic_regex : PyRe.regex :=
  PyRe.Cat (PyRe.Lit "[")
    (PyRe.Cat (PyRe.Alt (PyRe.Lit "MP") (PyRe.Lit "Conceptual"))
       (PyRe.Cat (PyRe.Lit "] ,Group ")
          (PyRe.Cat (PyRe.Plus (PyRe.Cls PyRe.digit))
             (PyRe.Cat (PyRe.Lit ", Computer ")
                (PyRe.Cat (PyRe.Plus (PyRe.Cls PyRe.digit))
                   (PyRe.Cat (PyRe.Lit " : ")
                      (PyRe.Cat (PyRe.Plus (PyRe.Cls PyRe.dot)) PyRe.Dollar))))))).

(** [re.match(regex, topic)] finds a match, for an ASCII [topic]. *)
Definition topic_ok (topic : string) : bool := PyRe.fullmatch topic_regex topic.

Definition format_header : string :=
  "**QUESTION WITH INCORRECT FORMAT:**" +:+ nl +:+ nl.

(** One turn of [for i in range(len(topics))], on the message so far;
    [None] once [netids[i]] has raised [IndexError]. *)
Definition check_topic (netids : list string) (message : option string)
    (item : nat * string) : option string :=
  match message with
  | None => None
  | Some message =>
      let '(i, topic) := item in
      if topic_ok topic then Some message
      else
        match netids !! i with
        | Some netid_i =>
            Some (message +:+ ("Question " +:+ pretty i +:+ " with netid "
                               +:+ netid_i +:+ " has wrong format: " +:+ topic))
        | None => None
        end
  end.

Definition check_message_format (netids topics : list string) : option string :=
  foldl (check_topic netids) (Some format_header) (imap pair topics).


(** Every character of [s] is in the class [p]. *)
Fixpoint all_chars (p : ascii → bool) (s : string) : bool :=
  match s with
  | EmptyString => true
  | String c s' => p c && all_chars p s'
  end.

(** [s.isascii()]: every character is below 128.  This is the text on
    which [str.strip], [str.lower] and the class [\d] are what [PyStr] and
    [PyRe] have them be; what is stated about the text that the loader or
    the format check produce is stated for such input. *)
Definition is_ascii (s : string) : bool :=
  all_chars (λ c, (N_of_ascii c <? 128)%N) s.

(** A roster whose cells are all ASCII text. *)
Definition ascii_rows (rows : list (list string)) : Prop :=
  Forall (Forall (λ cell, is_ascii cell = true)) rows.


(** ** Check-queue command: the collecting loop of [check_queue_command] *)

(** One turn of the loop that collects [netids] and [topics], on the two
    lists so far.  [has_topic_key q] says whether the question object has a
    "topic" key at all: [question["topic"]] raises [KeyError] when it has
    not, and the [topic] field is of no account then.  [None] once that has
    happened. *)
Definition collect_step (has_topic_key : question → bool)
    (st : option (list string * list string)) (q : question)
    : option (list string * list string) :=
  match st with
  | None => None
  | Some (netids, topics) =>
      match extract_netid q with
      | Some n =>
          if PyStr.truthy n then
            if has_topic_key q then
              match topic q with
              | Some t =>
                  if PyStr.truthy t
                  then Some (netids ++ [n], topics ++ [t])
                  else Some (netids ++ [n], topics)
              | None => Some (netids ++ [n], topics)
              end
            else None
          else Some (netids, topics)
      | None => Some (netids, topics)
      end
  end.

Definition collect_netids_topics (has_topic_key : question → bool)
    (questions : list question) : option (list string * list string) :=
  foldl (collect_step has_topic_key) (Some ([], [])) questions.

(** The identifier under which an entry is collected, if it is. *)
Definition netid_of (q : question) : option string :=
  match extract_netid q with
  | Some n => if PyStr.truthy n then Some n else None
  | None => None
  end.

(** The topic with which an entry is collected, if it has one that is not
    empty. *)
Definition topic_of (q : question) : option string :=
  match topic q with
  | Some t => if PyStr.truthy t then Some t else None
  | None => None
  end.


(** ** Worked examples *)

Definition roster_ex : views :=
  load_groups_from_csv (Reader [["a"; "b"]; ["alice"; "bob"]; ["carol"]] false).

Definition ask (n : string) : question :=
  Question (Some (Asker (Some n))) (Some "[MP] ,Group 1, Computer 2 : help").

Definition env_ex : cycle_env :=
  CycleEnv "42" (Some 7%Z) (Some (λ _, true))
    (λ _, Response 200 [ask "alice"; Question None None; ask "bob"; ask "carol"])
    roster_ex.1 roster_ex.2.

(** The same roster with a fetch that fails. *)
Definition env_down : cycle_env :=
  CycleEnv "42" (Some 7%Z) (Some (λ _, true)) (λ _, Transport_error)
    roster_ex.1 roster_ex.2.

(** The surroundings of [env_ex] with a channel whose [send] raises. *)
Definition env_send_raises : cycle_env :=
  CycleEnv "42" (Some 7%Z) (Some (λ _, false)) (queue_service env_ex)
    roster_ex.1 roster_ex.2.

(** The interval after a series of set-interval commands. *)
Definition set_interval_commands (CHECK_INTERVAL : Z) (requests : list Z) : Z :=
  foldl (λ interval seconds, (set_interval_command interval seconds).1)
    CHECK_INTERVAL requests.


Definition env_quiet : cycle_env :=
  CycleEnv "42" (Some 7%Z) (Some (λ _, true)) (λ _, Response 200 [ask "zed"])
    roster_ex.1 roster_ex.2.

Example load_ex :
  load_groups_from_csv
    (Reader [["m1"; "m2"]; ["  Abc123 "; "bob"]; [""; " "]; ["carol"; "ABC123"]] false)
  = ([("abc123", "Group 3"); ("bob", "Group 1"); ("carol", "Group 3")],
     [("Group 1", ["abc123"; "bob"]); ("Group 3", ["carol"; "abc123"])]).
Proof. vm_compute. reflexivity. Qed.

Example detect_ex :
  check_group_members_in_queue ["alice"; "dave"; "bob"; "carol"] roster_ex.1 roster_ex.2
  = [("Group 1", ["alice"; "bob"])].
Proof. vm_compute. reflexivity. Qed.

Example detect_duplicates_ex :
  check_group_members_in_queue ["carol"; "alice"; "carol"] roster_ex.1 roster_ex.2
  = [("Group 2", ["carol"; "carol"])].
Proof. vm_compute. reflexivity. Qed.

Example new_groups_same_ex :
  new_groups [("G", ["a"; "b"])] [("G", ["b"; "a"])] = [].
Proof. vm_compute. reflexivity. Qed.

Example new_groups_grown_ex :
  new_groups [("G", ["a"; "b"; "c"])] [("G", ["a"; "b"])] = [("G", ["a"; "b"; "c"])].
Proof. vm_compute. reflexivity. Qed.

Example format_ex :
  format_groups_message [("Group 1", ["alice"; "bob"])] roster_ex.2
  = "⚠️ **GROUPS WITH MULTIPLE MEMBERS IN QUEUE** ⚠️" +:+ nl +:+ nl
    +:+ "**Group 1**:" +:+ nl
    +:+ "• Members in queue: alice, bob" +:+ nl +:+ nl.
Proof. vm_compute. reflexivity. Qed.

Example format_absent_ex :
  format_groups_message [("Group 7", ["bob"; "dan"])]
    [("Group 7", ["ann"; "bob"; "cy"; "dan"])]
  = alert_header
    +:+ "**Group 7**:" +:+ nl
    +:+ "• Members in queue: bob, dan" +:+ nl
    +:+ "• Members not in queue: ann, cy" +:+ nl +:+ nl.
Proof. vm_compute. reflexivity. Qed.

Example cycle_ex :
  check_queue_for_groups env_ex []
  = CycleResult [format_groups_message [("Group 1", ["alice"; "bob"])] roster_ex.2]
      false [("Group 1", ["alice"; "bob"])].
Proof. vm_compute. reflexivity. Qed.

Example cycle_send_raises_ex :
  check_queue_for_groups env_send_raises []
  = CycleResult [format_groups_message [("Group 1", ["alice"; "bob"])] roster_ex.2]
      true [].
Proof. vm_compute. reflexivity. Qed.

Example set_interval_ex :
  set_interval_command 300 120 = (120%Z, "Check interval set to 120 seconds.").
Proof. vm_compute. reflexivity. Qed.

(** ** Facts about the string operations *)

Module PyStrFacts.
Import PyStr.

Lemma isspace_lower_char c : isspace (lower_char c) = isspace c.
Proof. destruct c as [[] [] [] [] [] [] [] []]; reflexivity. Qed.

Lemma lower_char_idemp c : lower_char (lower_char c) = lower_char c.
Proof. destruct c as [[] [] [] [] [] [] [] []]; reflexivity. Qed.

Lemma lower_idemp s : lower (lower s) = lower s.
Proof. induction s as [|c r IH]; simpl; [done|]. by rewrite lower_char_idemp, IH. Qed.

Lemma lower_lstrip s : lstrip (lower s) = lower (lstrip s).
Proof.
  induction s as [|c r IH]; simpl; [done|].
  rewrite isspace_lower_char. by destruct (isspace c).
Qed.

Lemma lower_rstrip s : rstrip (lower s) = lower (rstrip s).
Proof.
  induction s as [|c r IH]; simpl; [done|].
  rewrite IH, isspace_lower_char.
  destruct (rstrip r); simpl; [by destruct (isspace c)|done].
Qed.

Lemma lower_strip s : strip (lower s) = lower (strip s).
Proof. unfold strip. by rewrite lower_lstrip, lower_rstrip. Qed.

Lemma rstrip_idemp s : rstrip (rstrip s) = rstrip s.
Proof.
  induction s as [|c r IH]; simpl; [done|].
  destruct (rstrip r) as [|c' r'] eqn:Hr.
  - destruct (isspace c) eqn:Hc; simpl; [done|]. by rewrite Hc.
  - change (rstrip (String c (String c' r')) = String c (String c' r')).
    cbn [rstrip] in IH |- *. by rewrite IH.
Qed.

(** A string that does not start with white space still does not after
    [rstrip], so [lstrip] leaves it alone. *)
Lemma lstrip_rstrip_lstrip s : lstrip (rstrip (lstrip s)) = rstrip (lstrip s).
Proof.
  induction s as [|c r IH]; simpl; [done|].
  destruct (isspace c) eqn:Hc; [done|].
  simpl. destruct (rstrip r); rewrite ?Hc; simpl; by rewrite Hc.
Qed.

Lemma strip_idemp s : strip (strip s) = strip s.
Proof. unfold strip. by rewrite lstrip_rstrip_lstrip, rstrip_idemp. Qed.

(** The roster's normal form, [cell.strip().lower()], is a fixed point of
    itself. *)
Lemma normal_form_idemp s : lower (strip (lower (strip s))) = lower (strip s).
Proof. by rewrite lower_strip, strip_idemp, lower_idemp. Qed.

Lemma app_assoc (a b c : string) : (a +:+ b) +:+ c = a +:+ (b +:+ c).
Proof.
  induction a as [|x a IH]; [done|].
  change (String x ((a +:+ b) +:+ c) = String x (a +:+ b +:+ c)). by rewrite IH.
Qed.

Lemma app_empty_r (a : string) : a +:+ "" = a.
Proof.
  induction a as [|x a IH]; [done|].
  change (String x (a +:+ "") = String x a). by rewrite IH.
Qed.

End PyStrFacts.

(** ** Facts about dictionaries *)

Section dict_facts.
Context {V : Type}.
Implicit Types (d acc : dict V) (k : string) (v : V).

Lemma dict_get_set d k v k' :
  dict_get (dict_set d k v) k' = if decide (k' = k) then Some v else dict_get d k'.
Proof.
  induction d as [|[k0 v0] d IH]; simpl.
  - by destruct (decide (k' = k)).
  - destruct (decide (k = k0)) as [->|Hne]; simpl.
    + by destruct (decide (k' = k0)).
    + rewrite IH. destruct (decide (k' = k0)) as [->|]; [|done].
      by rewrite decide_False by done.
Qed.

Lemma dict_get_set_eq d k v : dict_get (dict_set d k v) k = Some v.
Proof. rewrite dict_get_set. by rewrite decide_True. Qed.

Lemma dict_get_set_ne d k v k' : k' ≠ k → dict_get (dict_set d k v) k' = dict_get d k'.
Proof. intros. rewrite dict_get_set. by rewrite decide_False. Qed.

Lemma dict_get_None d k : dict_get d k = None ↔ k ∉ d.*1.
Proof.
  induction d as [|[k0 v0] d IH]; simpl.
  - split; [intros _; apply not_elem_of_nil|done].
  - rewrite not_elem_of_cons, <- IH.
    destruct (decide (k = k0)); [split; [done|tauto]|tauto].
Qed.

Lemma dict_get_elem_of d k v : dict_get d k = Some v → (k, v) ∈ d.
Proof.
  induction d as [|[k0 v0] d IH]; simpl; [done|].
  destruct (decide (k = k0)) as [->|]; intros; simplify_eq; [left|right; auto].
Qed.

Lemma dict_elem_of_get d k v : dict_wf d → (k, v) ∈ d → dict_get d k = Some v.
Proof.
  unfold dict_wf. induction d as [|[k0 v0] d IH]; simpl.
  - intros _ []%elem_of_nil.
  - rewrite NoDup_cons. intros [Hk Hd] [?|Hin]%elem_of_cons; simplify_eq.
    + by rewrite decide_True.
    + rewrite decide_False; [auto|]. intros ->. apply Hk.
      apply list_elem_of_fmap. by exists (k0, v).
Qed.

Lemma dict_keys_set d k v :
  (dict_set d k v).*1 = if dict_mem d k then d.*1 else d.*1 ++ [k].
Proof.
  unfold dict_mem. induction d as [|[k0 v0] d IH]; csimpl; [done|].
  destruct (decide (k = k0)) as [->|]; csimpl; [done|].
  rewrite IH. by destruct (dict_get d k).
Qed.

Lemma dict_set_wf d k v : dict_wf d → dict_wf (dict_set d k v).
Proof.
  unfold dict_wf. intros Hd. rewrite dict_keys_set. unfold dict_mem.
  destruct (dict_get d k) eqn:Hk; [done|].
  apply NoDup_app. split_and!; [done| |apply NoDup_singleton].
  intros x Hx ->%list_elem_of_singleton. by apply dict_get_None in Hk.
Qed.

(** The loop [for k, v in d.items(): if P k v: acc[k] = v], read at one
    key. *)
Lemma dict_get_foldl_set (P : string → V → bool) d acc k :
  dict_wf d →
  dict_get
    (foldl (λ acc kv, if P kv.1 kv.2 then dict_set acc kv.1 kv.2 else acc) acc d) k
  = match dict_get d k with
    | Some v => if P k v then Some v else dict_get acc k
    | None => dict_get acc k
    end.
Proof.
  unfold dict_wf. revert acc.
  induction d as [|[k0 v0] d IH]; intros acc; simpl; [done|].
  rewrite NoDup_cons. intros [Hk0 Hd]. rewrite IH by done.
  destruct (decide (k = k0)) as [->|Hne].
  - apply dict_get_None in Hk0 as ->.
    destruct (P k0 v0); [apply dict_get_set_eq|done].
  - assert (dict_get (if P k0 v0 then dict_set acc k0 v0 else acc) k
            = dict_get acc k) as ->; [|done].
    destruct (P k0 v0); [by apply dict_get_set_ne|done].
Qed.

Lemma foldl_set_wf (P : string → V → bool) d acc :
  dict_wf acc →
  dict_wf (foldl (λ acc kv, if P kv.1 kv.2 then dict_set acc kv.1 kv.2 else acc) acc d).
Proof.
  revert acc. induction d as [|[k0 v0] d IH]; intros acc Hacc; simpl; [done|].
  apply IH. destruct (P k0 v0); [by apply dict_set_wf|done].
Qed.

Lemma foldl_set_nil (P : string → V → bool) d :
  Forall (λ kv, P kv.1 kv.2 = false) d →
  foldl (λ acc kv, if P kv.1 kv.2 then dict_set acc kv.1 kv.2 else acc) [] d = [].
Proof. induction 1 as [|[k0 v0] d Hx _ IH]; simpl in *; [done|]. by rewrite Hx. Qed.

Lemma dict_get_filter (P : string → V → bool) d k :
  dict_wf d →
  dict_get (dict_filter P d) k
  = match dict_get d k with
    | Some v => if P k v then Some v else None
    | None => None
    end.
Proof. intros Hd. unfold dict_filter. by rewrite dict_get_foldl_set. Qed.

Lemma dict_filter_wf (P : string → V → bool) d : dict_wf (dict_filter P d).
Proof. apply foldl_set_wf, NoDup_nil_2. Qed.

End dict_facts.

(** ** Group-Overlap Detector *)

Section detector.
Variable netid_to_group : dict string.
Implicit Types (st : dict nat * dict (list string)) (g n : string).

Lemma detect_step_get st n g :
  dict_get (detect_step netid_to_group st n).2 g
  = if decide (dict_get netid_to_group n = Some g)
    then Some (default [] (dict_get st.2 g) ++ [n])
    else dict_get st.2 g.
Proof.
  unfold detect_step.
  destruct (dict_get netid_to_group n) as [g'|] eqn:Hn; [|by rewrite decide_False].
  cbn [snd]. unfold dict_append, dict_mem.
  destruct (dict_get st.2 g') as [l|] eqn:Hg'.
  - rewrite Hg', dict_get_set.
    destruct (decide (g = g')) as [->|].
    + by rewrite decide_True, Hg'.
    + rewrite decide_False; [done|congruence].
  - rewrite dict_get_set_eq, !dict_get_set.
    destruct (decide (g = g')) as [->|].
    + by rewrite decide_True, Hg'.
    + rewrite decide_False; [done|congruence].
Qed.

Lemma detect_step_wf st n : dict_wf st.2 → dict_wf (detect_step netid_to_group st n).2.
Proof.
  intros Hwf. unfold detect_step.
  destruct (dict_get netid_to_group n) as [g'|]; [|done].
  cbn [snd]. unfold dict_append.
  destruct (dict_mem st.2 g').
  - destruct (dict_get st.2 g'); [by apply dict_set_wf|done].
  - rewrite dict_get_set_eq. by do 2 apply dict_set_wf.
Qed.

(** The accumulation loop, read at one group: the identifiers of that
    group are appended in the order they come. *)
Lemma detect_loop_get netids st g :
  dict_get (foldl (detect_step netid_to_group) st netids).2 g
  = match queued_of netid_to_group g netids with
    | [] => dict_get st.2 g
    | l => Some (default [] (dict_get st.2 g) ++ l)
    end.
Proof.
  unfold queued_of. revert st.
  induction netids as [|n netids IH]; intros st; [done|].
  cbn [foldl]. rewrite IH, detect_step_get.
  destruct (decide (dict_get netid_to_group n = Some g)) as [Hn|Hn].
  - rewrite filter_cons_True by done. cbn [default].
    destruct (filter _ netids); [done|]. unfold id. by rewrite <- (assoc_L (++)).
  - by rewrite filter_cons_False by done.
Qed.

Lemma detect_loop_wf netids st :
  dict_wf st.2 → dict_wf (foldl (detect_step netid_to_group) st netids).2.
Proof.
  revert st. induction netids as [|n netids IH]; intros st Hwf; [done|].
  cbn [foldl]. by apply IH, detect_step_wf.
Qed.

Lemma detect_get netids group_to_members g :
  dict_get (check_group_members_in_queue netids netid_to_group group_to_members) g
  = if decide (2 ≤ length (queued_of netid_to_group g netids))
    then Some (queued_of netid_to_group g netids)
    else None.
Proof.
  unfold check_group_members_in_queue.
  rewrite dict_get_filter by (apply detect_loop_wf, NoDup_nil_2).
  rewrite detect_loop_get. cbn [snd dict_get default app].
  destruct (queued_of netid_to_group g netids) as [|x l] eqn:Hq.
  - by rewrite decide_False by (simpl; lia).
  - destruct (decide (2 ≤ length (x :: l))).
    + by rewrite bool_decide_true by lia.
    + by rewrite bool_decide_false by lia.
Qed.

Lemma detect_wf netids group_to_members :
  dict_wf (check_group_members_in_queue netids netid_to_group group_to_members).
Proof. apply dict_filter_wf. Qed.

(** Whoever is listed under a group in the output is mapped to that group by
    the roster. *)
Lemma detect_members_in_roster netids group_to_members g members n :
  dict_get (check_group_members_in_queue netids netid_to_group group_to_members) g
  = Some members →
  n ∈ members → dict_get netid_to_group n = Some g.
Proof.
  rewrite detect_get. case_decide; [|done]. intros [= <-].
  unfold queued_of. rewrite list_elem_of_filter. by intros [Hg _].
Qed.

End detector.

(** C4.  The detector maps every group to exactly the sub-list of the input
    identifiers that the roster assigns to it -- input order kept, duplicates
    kept -- provided that sub-list has at least two entries, and to nothing
    otherwise; no group is listed twice; an identifier that is not in the
    roster is in no group's list; and two runs on the same inputs give the
    same result. *)
Theorem detect_exact_sublists (netids : list string)
    (netid_to_group : dict string) (group_to_members : dict (list string)) :
  let out := check_group_members_in_queue netids netid_to_group group_to_members in
  (∀ g, dict_get out g
        = if decide (2 ≤ length (queued_of netid_to_group g netids))
          then Some (queued_of netid_to_group g netids)
          else None)
  ∧ dict_wf out
  ∧ (∀ n g members,
       dict_get netid_to_group n = None → dict_get out g = Some members → n ∉ members)
  ∧ (∀ out', out' = check_group_members_in_queue netids netid_to_group group_to_members →
       out' = out).
Proof.
  intros out. split_and!.
  - intros g. apply detect_get.
  - apply detect_wf.
  - intros n g members Hn Hout Hin.
    apply (detect_members_in_roster _ _ _ _ _ n) in Hout; [congruence|done].
  - by intros out' ->.
Qed.

(** C5.  Every group in a detector output has at least two entries in its
    list, so a group with exactly one queued member is not in the output;
    one identifier queued twice counts twice. *)
Theorem detect_at_least_two (netids : list string)
    (netid_to_group : dict string) (group_to_members : dict (list string)) :
  let out := check_group_members_in_queue netids netid_to_group group_to_members in
  Forall (λ item, 2 ≤ length item.2) out
  ∧ (∀ g, length (queued_of netid_to_group g netids) = 1 →
          dict_get out g = None ∧ g ∉ out.*1)
  ∧ (∀ n g, dict_get netid_to_group n = Some g →
            dict_get (check_group_members_in_queue [n; n] netid_to_group group_to_members) g
            = Some [n; n]).
Proof.
  intros out. split_and!.
  - apply Forall_forall. intros [g members] Hin.
    apply dict_elem_of_get in Hin; [|apply detect_wf].
    unfold out in Hin. rewrite detect_get in Hin.
    case_decide; [|done]. by simplify_eq.
  - intros g Hone.
    assert (dict_get out g = None) as Hnone.
    { unfold out. rewrite detect_get. by rewrite decide_False by lia. }
    split; [done|]. by apply dict_get_None.
  - intros n g Hn. rewrite detect_get. unfold queued_of.
    rewrite !filter_cons_True by done. by rewrite filter_nil.
Qed.

Lemma detect_exact_sublists_witness : "dave" ∉ ["alice"; "bob"].
Proof.
  destruct (detect_exact_sublists ["alice"; "dave"; "bob"; "carol"]
              roster_ex.1 roster_ex.2) as (_ & _ & Habsent & _).
  apply (Habsent "dave" "Group 1"); vm_compute; reflexivity.
Defined.

Lemma detect_at_least_two_witness :
  dict_get (check_group_members_in_queue ["alice"; "carol"] roster_ex.1 roster_ex.2)
    "Group 1" = None.
Proof.
  destruct (detect_at_least_two ["alice"; "carol"] roster_ex.1 roster_ex.2)
    as (_ & Hone & _).
  apply Hone. vm_compute. reflexivity.
Defined.

(** ** Roster Store *)

Lemma group_label_inj i j : group_label i = group_label j → i = j.
Proof. unfold group_label. intros H. by apply (inj _), (inj _) in H. Qed.

Section loader.
Implicit Types (vs : views) (row members : list string) (d : dict string).

(** The cell loop: the identifiers it appends, and the dictionary it
    leaves, read at any key. *)
Lemma load_cells_spec group_id row members d :
  ∃ new,
    (foldl (load_cell group_id) (members, d) row).1 = members ++ new
    ∧ Forall (λ n, normalize n = n) new
    ∧ ∀ n, dict_get (foldl (load_cell group_id) (members, d) row).2 n
           = if decide (n ∈ new) then Some group_id else dict_get d n.
Proof.
  revert members d. induction row as [|cell row IH]; intros members d.
  - exists []. rewrite (right_id_L [] (++)). split_and!; [done|constructor|].
    intros n. by rewrite decide_False by apply not_elem_of_nil.
  - cbn [foldl]. unfold load_cell at 2 4.
    destruct (PyStr.truthy (PyStr.strip cell)); [|apply IH].
    destruct (IH (members ++ [PyStr.lower (PyStr.strip cell)])
                (dict_set d (PyStr.lower (PyStr.strip cell)) group_id))
      as (new & Hmem & Hnorm & Hget).
    exists (PyStr.lower (PyStr.strip cell) :: new). split_and!.
    + by rewrite Hmem, <- (assoc_L (++)).
    + constructor; [apply PyStrFacts.normal_form_idemp|done].
    + intros n. rewrite Hget, dict_get_set.
      destruct (decide (n ∈ new)) as [Hin|Hin].
      * by rewrite decide_True by (by right).
      * destruct (decide (n = PyStr.lower (PyStr.strip cell))) as [->|Hne].
        -- by rewrite decide_True by left.
        -- rewrite decide_False; [done|]. by intros [?|?]%elem_of_cons.
Qed.

Lemma load_row_inv group_idx row vs :
  roster_inv group_idx vs → roster_inv (S group_idx) (load_row group_idx row vs).
Proof.
  intros Hinv n g. unfold load_row.
  destruct (load_cells_spec (group_label group_idx) row [] vs.1)
    as (new & Hmem & Hnorm & Hget).
  destruct (foldl _ _ row) as [members d'] eqn:Hfold.
  cbn [fst snd app] in *. subst members. rewrite Hget.
  destruct (decide (n ∈ new)) as [Hin|Hin].
  - intros [= <-]. split_and!.
    + by eapply Forall_forall in Hnorm.
    + exists group_idx. split; [lia|done].
    + exists new. destruct new; [by apply elem_of_nil in Hin|].
      by rewrite dict_get_set_eq.
  - intros Hn. destruct (Hinv n g Hn) as (Hnf & (j & Hj & ->) & ms & Hms & Hnms).
    split_and!; [done|exists j; split; [lia|done]|].
    exists ms. split; [|done]. destruct new; [done|].
    rewrite dict_get_set_ne; [done|]. intros ?%group_label_inj. lia.
Qed.

Lemma load_rows_inv rows group_idx vs :
  roster_inv group_idx vs →
  roster_inv (group_idx + length rows) (load_rows group_idx rows vs).
Proof.
  revert group_idx vs. induction rows as [|row rows IH]; intros group_idx vs Hinv.
  - by rewrite Nat.add_0_r.
  - cbn [load_rows length]. rewrite <- Nat.add_succ_comm.
    by apply IH, load_row_inv.
Qed.

Lemma empty_views_inv group_idx : roster_inv group_idx empty_views.
Proof. by intros n g. Qed.

Lemma load_groups_inv src :
  roster_inv (length (rows_read src)) (load_groups_from_csv src).
Proof.
  destruct src as [|[|headers rows] fails]; try apply empty_views_inv.
  apply (load_rows_inv rows 1), empty_views_inv.
Qed.

End loader.

(** C6.  In the two views that a roster load returns, every identifier of
    the identifier-to-group map is listed under the group the map gives it,
    and that group is present in the group-to-members map.  An identifier
    written in several rows is mapped to the last of them and is listed
    there. *)
Theorem roster_views_agree (src : csv_source) (n g : string) :
  dict_get (load_groups_from_csv src).1 n = Some g →
  ∃ members, dict_get (load_groups_from_csv src).2 g = Some members ∧ n ∈ members.
Proof. intros Hn. by destruct (load_groups_inv src n g Hn) as (_ & _ & ?). Qed.

Lemma roster_views_agree_witness :
  ∃ members,
    dict_get (load_groups_from_csv
                (Reader [["m1"; "m2"]; ["abc123"; "bob"]; ["carol"; " ABC123"]] false)).2
      "Group 2" = Some members
    ∧ "abc123" ∈ members.
Proof.
  apply (roster_views_agree
           (Reader [["m1"; "m2"]; ["abc123"; "bob"]; ["carol"; " ABC123"]] false) "abc123").
  vm_compute. reflexivity.
Defined.


(** ** Change Tracker *)

Section tracker.
Implicit Types (current previous acc : dict (list string)).

Lemma new_groups_step_reported previous acc item :
  new_groups_step previous acc item
  = if reported previous item.1 item.2 then dict_set acc item.1 item.2 else acc.
Proof.
  destruct item as [g members]. unfold new_groups_step, reported. cbn [fst snd].
  by destruct (dict_get previous g).
Qed.

Lemma new_groups_foldl current previous acc :
  foldl (new_groups_step previous) acc current
  = foldl (λ acc kv, if reported previous kv.1 kv.2
                     then dict_set acc kv.1 kv.2 else acc) acc current.
Proof.
  revert acc. induction current as [|item current IH]; intros acc; [done|].
  cbn [foldl]. by rewrite IH, new_groups_step_reported.
Qed.

Lemma issuperset_incl (prev members : list string) :
  issuperset (list_to_set prev) (list_to_set members) = true ↔ members ⊆ prev.
Proof.
  unfold issuperset. rewrite bool_decide_eq_true. split.
  - intros H x Hx. apply (elem_of_list_to_set (C:=gset string)).
    apply H. by apply elem_of_list_to_set.
  - intros H x Hx. apply elem_of_list_to_set.
    apply H. by apply (elem_of_list_to_set (C:=gset string)) in Hx.
Qed.

Lemma reported_iff previous g members :
  reported previous g members = true ↔
  dict_get previous g = None
  ∨ ∃ prev, dict_get previous g = Some prev ∧ members ⊈ prev.
Proof.
  unfold reported. destruct (dict_get previous g) as [prev|].
  - rewrite negb_true_iff, <- not_true_iff_false, issuperset_incl. split.
    + intros Hsub. right. by exists prev.
    + intros [[=]|(prev' & [= <-] & Hsub)]. exact Hsub.
  - split; [by left|done].
Qed.

Lemma new_groups_get current previous g :
  dict_wf current →
  dict_get (new_groups current previous) g
  = match dict_get current g with
    | Some members => if reported previous g members then Some members else None
    | None => None
    end.
Proof.
  intros Hwf. unfold new_groups.
  by rewrite new_groups_foldl, dict_get_foldl_set.
Qed.

Lemma new_groups_wf current previous : dict_wf (new_groups current previous).
Proof. unfold new_groups. rewrite new_groups_foldl. apply foldl_set_wf, NoDup_nil_2. Qed.

(** Nothing is reported when the previous state is the current result. *)
Lemma new_groups_same current : dict_wf current → new_groups current current = [].
Proof.
  intros Hwf. unfold new_groups. rewrite new_groups_foldl.
  apply foldl_set_nil, Forall_forall. intros [g members] Hin.
  unfold reported. cbn [fst snd].
  rewrite (dict_elem_of_get _ _ _ Hwf Hin).
  apply negb_false_iff, issuperset_incl. done.
Qed.

End tracker.

(** C1.  The change tracker's output has group [G], with [G]'s current
    member list as its value, exactly when [G] is in [current] and either
    [G] is not in [previous] or some current member of [G] is not among the
    members that [previous] lists for [G].  So with [previous = {G: [a, b]}]
    and [current = {G: [a, c]}], [c] being new, [G] is in the output although
    the count is the same. *)
Theorem new_groups_iff_not_subset (current previous : dict (list string)) :
  dict_wf current →
  (∀ G members,
     dict_get (new_groups current previous) G = Some members ↔
     dict_get current G = Some members
     ∧ (dict_get previous G = None
        ∨ ∃ prev, dict_get previous G = Some prev ∧ members ⊈ prev))
  ∧ dict_wf (new_groups current previous)
  ∧ (∀ G a b c, c ≠ a → c ≠ b →
       new_groups [(G, [a; c])] [(G, [a; b])] = [(G, [a; c])]).
Proof.
  intros Hwf. split_and!.
  - intros G members. rewrite new_groups_get by done. rewrite <- reported_iff.
    destruct (dict_get current G) as [ms|]; [|by split; [|intros [[=] _]]].
    destruct (reported previous G ms) eqn:Hr.
    + split; [intros [= ->]; by rewrite Hr|by intros [? _]].
    + split; [done|]. intros [[= ->] ?]. congruence.
  - apply new_groups_wf.
  - intros G a b c Ha Hb. unfold new_groups. cbn [foldl].
    rewrite new_groups_step_reported. cbn [fst snd].
    assert (reported [(G, [a; b])] G [a; c] = true) as ->; [|done].
    apply reported_iff. right. exists [a; b]. split.
    { simpl. by rewrite decide_True. }
    intros Hsub. specialize (Hsub c). rewrite !elem_of_cons in Hsub.
    destruct Hsub as [?|[?|?%elem_of_nil]]; [by right; left|done..].
Qed.

Lemma new_groups_iff_not_subset_witness :
  dict_get (new_groups [("Group 1", ["alice"; "carol"])] [("Group 1", ["alice"; "bob"])])
    "Group 1" = Some ["alice"; "carol"].
Proof.
  destruct (new_groups_iff_not_subset
              [("Group 1", ["alice"; "carol"])] [("Group 1", ["alice"; "bob"])])
    as (Hiff & _ & _).
  { unfold dict_wf. simpl. apply NoDup_singleton. }
  apply Hiff. split; [reflexivity|].
  right. exists ["alice"; "bob"]. split; [reflexivity|].
  intros Hsub. specialize (Hsub "carol"). rewrite !elem_of_cons in Hsub.
  destruct Hsub as [?|[?|?%elem_of_nil]]; [by right; left|done..].
Defined.

(** ** Polling cycle *)


(** The cycle, split by its two early returns. *)
Lemma check_queue_for_groups_cases env previous :
  check_queue_for_groups env previous
  = if bool_decide (DEFAULT_QUEUE_ID env = "" ∨ fetched env = [])
    then CycleResult [] false previous
    else
      let alert :=
        dispatch env (new_groups (groups_in_queue_of env (fetched env)) previous) in
      CycleResult alert.1 alert.2
        (if alert.2 then previous else groups_in_queue_of env (fetched env)).
Proof.
  unfold check_queue_for_groups, fetched.
  destruct (DEFAULT_QUEUE_ID env) as [|c id] eqn:Hid; cbn [PyStr.truthy negb].
  - by rewrite bool_decide_true by (by left).
  - destruct (get_questions_for_queue _) as [|q qs] eqn:Hq.
    + by rewrite bool_decide_true by (by right).
    + by rewrite bool_decide_false by (by intros [?|?]).
Qed.

Lemma dispatch_nil env : dispatch env [] = ([], false).
Proof. done. Qed.


Lemma state_after_cases env previous :
  state_after (check_queue_for_groups env previous)
  = if bool_decide (DEFAULT_QUEUE_ID env = "" ∨ fetched env = [])
       || cycle_raised (check_queue_for_groups env previous)
    then previous else groups_in_queue_of env (fetched env).
Proof.
  rewrite check_queue_for_groups_cases. case_bool_decide; [done|].
  cbn [state_after cycle_raised orb]. by destruct (dispatch _ _).2.
Qed.

(** A cycle right after a cycle that was not left by an exception, on the
    same queue and roster, has nothing to report and sends nothing. *)
Lemma cycle_after_cycle_silent env env' previous :
  DEFAULT_QUEUE_ID env' = DEFAULT_QUEUE_ID env →
  fetched env' = fetched env →
  netid_to_group env' = netid_to_group env →
  group_to_members env' = group_to_members env →
  cycle_raised (check_queue_for_groups env previous) = false →
  check_queue_for_groups env' (state_after (check_queue_for_groups env previous))
  = CycleResult [] false (state_after (check_queue_for_groups env previous)).
Proof.
  intros Hid Hq Hn Hg Hok.
  rewrite state_after_cases, Hok, (check_queue_for_groups_cases env'), Hid, Hq.
  case_bool_decide; cbn [orb]; [done|].
  unfold groups_in_queue_of. rewrite Hn, Hg.
  by rewrite new_groups_same by apply detect_wf.
Qed.




(** C8, as the program has it.  A cycle sends nothing when the change
    tracker's output is empty.  Of two cycles run one after the other on
    the same roster and the same queue snapshot, the first of which was not
    left by an exception, the second sends nothing: when it gets as far as
    the change tracker, the tracker's output there is empty.  The same
    holds for two turns of the background loop, which runs the cycle only
    with a roster loaded. *)
Theorem no_alert_without_news (env : cycle_env) (previous : dict (list string)) :
  (new_groups (groups_in_queue_of env (fetched env)) previous = [] →
   sent_to_channel (check_queue_for_groups env previous) = [])
  ∧ (cycle_raised (check_queue_for_groups env previous) = false →
     sent_to_channel
       (check_queue_for_groups env
          (state_after (check_queue_for_groups env previous))) = []
     ∧ (DEFAULT_QUEUE_ID env ≠ "" → fetched env ≠ [] →
        new_groups (groups_in_queue_of env (fetched env))
          (state_after (check_queue_for_groups env previous)) = []))
  ∧ (cycle_raised (check_queue_periodically_turn env previous) = false →
     sent_to_channel
       (check_queue_periodically_turn env
          (state_after (check_queue_periodically_turn env previous))) = []).
Proof.
  split_and!.
  - intros Hnone. rewrite check_queue_for_groups_cases.
    case_bool_decide; [done|]. cbn [sent_to_channel]. by rewrite Hnone.
  - intros Hok. split.
    + by rewrite cycle_after_cycle_silent.
    + intros Hid Hq. rewrite state_after_cases, Hok.
      rewrite bool_decide_false by (by intros [?|?]). cbn [orb].
      apply new_groups_same, detect_wf.
  - unfold check_queue_periodically_turn.
    destruct (group_to_members env) eqn:Hg; [done|]. intros Hok.
    by rewrite cycle_after_cycle_silent.
Qed.

Lemma no_alert_without_news_witness :
  sent_to_channel (check_queue_for_groups env_ex previous_ex) = []
  ∧ sent_to_channel
      (check_queue_for_groups env_ex (state_after (check_queue_for_groups env_ex [])))
    = []
  ∧ new_groups (groups_in_queue_of env_ex (fetched env_ex))
      (state_after (check_queue_for_groups env_ex [])) = [].
Proof.
  split_and!.
  - destruct (no_alert_without_news env_ex previous_ex) as (Hquiet & _ & _).
    apply Hquiet. vm_compute. reflexivity.
  - destruct (no_alert_without_news env_ex []) as (_ & Hsecond & _).
    apply Hsecond. vm_compute. reflexivity.
  - destruct (no_alert_without_news env_ex []) as (_ & Hsecond & _).
    apply Hsecond; vm_compute; (reflexivity || discriminate).
Defined.

(** C8, as stated, fails: when [channel.send] raises in the first cycle the
    state is not stored, so the second cycle on the same roster and the
    same queue snapshot has the same groups to report and passes the alert
    to the channel again; with a channel that takes it then, the alert goes
    out on the second cycle. *)
Lemma repeated_alert_after_failed_send :
  cycle_raised (check_queue_for_groups env_send_raises []) = true
  ∧ new_groups (groups_in_queue_of env_send_raises (fetched env_send_raises))
      (state_after (check_queue_for_groups env_send_raises []))
    = [("Group 1", ["alice"; "bob"])]
  ∧ sent_to_channel
      (check_queue_for_groups env_send_raises
         (state_after (check_queue_for_groups env_send_raises [])))
    = [format_groups_message [("Group 1", ["alice"; "bob"])] roster_ex.2]
  ∧ fetched env_ex = fetched env_send_raises
  ∧ netid_to_group env_ex = netid_to_group env_send_raises
  ∧ group_to_members env_ex = group_to_members env_send_raises
  ∧ check_queue_for_groups env_ex
      (state_after (check_queue_for_groups env_send_raises []))
    = CycleResult [format_groups_message [("Group 1", ["alice"; "bob"])] roster_ex.2]
        false [("Group 1", ["alice"; "bob"])].
Proof. vm_compute. by split_and!. Qed.

(** ** Operator command *)

(** C9.  The set-interval command turns down every value below 60: the
    interval stays as it was and the reply says so.  For every value from 60
    up, the interval becomes that value and the reply confirms it. *)
Theorem set_interval_floor (CHECK_INTERVAL seconds : Z) :
  ((seconds < 60)%Z →
   set_interval_command CHECK_INTERVAL seconds
   = (CHECK_INTERVAL, "Interval must be at least 60 seconds."))
  ∧ ((60 ≤ seconds)%Z →
     set_interval_command CHECK_INTERVAL seconds
     = (seconds, "Check interval set to " +:+ pretty seconds +:+ " seconds.")).
Proof.
  unfold set_interval_command. split; intros H.
  - by rewrite bool_decide_true.
  - rewrite bool_decide_false; [done|lia].
Qed.

Lemma set_interval_floor_witness :
  set_interval_command 300 59 = (300%Z, "Interval must be at least 60 seconds.")
  ∧ set_interval_command 300 60 = (60%Z, "Check interval set to 60 seconds.").
Proof.
  split.
  - apply (set_interval_floor 300 59). lia.
  - apply (set_interval_floor 300 60). lia.
Defined.

(** ** Alert Formatter *)

Lemma filter_nil_Exists {A} (P : A → Prop) `{!∀ x, Decision (P x)} (l : list A) :
  filter P l = [] ↔ ¬ Exists P l.
Proof.
  split.
  - intros Hnil (x & Hin & HP)%Exists_exists.
    by apply (filter_nil_not_elem_of P l x) in Hnil.
  - intros Hnone. destruct (filter P l) as [|x r] eqn:Hf; [done|].
    assert (x ∈ filter P l) as [HP Hin]%list_elem_of_filter by (rewrite Hf; left).
    destruct Hnone. apply Exists_exists. by exists x.
Qed.

Lemma comma_separated_prefix (a b : string) (rest : list string) :
  foldl (λ line m', line +:+ ", " +:+ m') (a +:+ b) rest
  = a +:+ foldl (λ line m', line +:+ ", " +:+ m') b rest.
Proof.
  revert b. induction rest as [|m rest IH]; intros b; [done|].
  cbn [foldl]. by rewrite PyStrFacts.app_assoc, IH.
Qed.

(** [', '.join(members)] writes the members with ", " between them. *)
Lemma join_comma_separated (members : list string) :
  join ", " members = comma_separated members.
Proof.
  unfold join. destruct members as [|m rest]; [done|]. cbn [comma_separated].
  revert m. induction rest as [|m' rest IH]; intros m; [done|].
  change (String.concat ", " (m :: m' :: rest))
    with (m +:+ ", " +:+ String.concat ", " (m' :: rest)).
  rewrite IH. cbn [foldl]. by rewrite <- !comma_separated_prefix.
Qed.

(** One turn of the formatter's loop appends the block of its group. *)
Lemma format_step_block group_to_members message item :
  format_step group_to_members message item
  = message +:+ group_block group_to_members item.
Proof.
  destruct item as [group_id members]. unfold format_step, group_block.
  cbn [fst snd]. rewrite !join_comma_separated. change nl with line_feed.
  destruct (filter _ (default [] (dict_get group_to_members group_id)))
    as [|m ms] eqn:Hf.
  - apply filter_nil_Exists in Hf. rewrite bool_decide_false by done.
    by rewrite !PyStrFacts.app_assoc.
  - rewrite bool_decide_true.
    + by rewrite !PyStrFacts.app_assoc.
    + apply dec_stable. rewrite <- filter_nil_Exists. by rewrite Hf.
Qed.

Lemma format_loop_blocks group_to_members groups message :
  foldl (format_step group_to_members) message groups
  = message +:+ concat_blocks (group_block group_to_members <$> groups).
Proof.
  revert message. induction groups as [|item groups IH]; intros message.
  - by rewrite PyStrFacts.app_empty_r.
  - cbn [foldl]. rewrite IH, format_step_block, PyStrFacts.app_assoc. done.
Qed.

(** C7.  For an empty overlap result the formatter returns the fixed
    sentence.  Otherwise its output is the header followed by one block per
    group, in the order of the overlap result; a block has the group label,
    the queued members written with ", " between them and, exactly when
    some roster member of the group is not queued, a line with those
    members, written the same way. *)
Theorem format_one_block_per_group
    (groups_in_queue group_to_members : dict (list string)) :
  format_groups_message groups_in_queue group_to_members
  = match groups_in_queue with
    | [] => "No groups with multiple members found in the queue."
    | _ :: _ =>
        ("⚠️ **GROUPS WITH MULTIPLE MEMBERS IN QUEUE** ⚠️" +:+ line_feed +:+ line_feed)
        +:+ concat_blocks (group_block group_to_members <$> groups_in_queue)
    end.
Proof.
  unfold format_groups_message. destruct groups_in_queue as [|item groups]; [done|].
  apply format_loop_blocks.
Qed.

(** ** Identifiers on the detection path *)

Lemma roster_keys_normal src n g :
  dict_get (load_groups_from_csv src).1 n = Some g → normalize n = n.
Proof. intros Hn. by destruct (load_groups_inv src n g Hn) as (? & _). Qed.

(** An identifier that is not a key of the roster leaves the detector's
    loop where it is. *)
Lemma detect_skips_unknown netid_to_group group_to_members before x after :
  dict_get netid_to_group x = None →
  check_group_members_in_queue (before ++ x :: after) netid_to_group group_to_members
  = check_group_members_in_queue (before ++ after) netid_to_group group_to_members.
Proof.
  intros Hx. unfold check_group_members_in_queue. rewrite !foldl_app. cbn [foldl].
  unfold detect_step at 2. by rewrite Hx.
Qed.

(** C10.  The identifier of a queue entry reaches the detector as it is
    written.  So an identifier [x] whose normal form is a roster member [m]
    but which is not [m] itself -- it differs in letter case or in white
    space around it -- is not a key of the loaded roster and is treated as
    absent from it: the overlap result of a queue with [x] in it is that of
    the queue without it, and [x] is in no group's list of any overlap
    result computed with that roster. *)
Theorem unnormalized_netid_not_matched (src : csv_source) (x m : string) :
  dict_mem (load_groups_from_csv src).1 m = true →
  normalize x = m →
  x ≠ m →
  (∀ t rest,
     collect_netids (Question (Some (Asker (Some x))) t :: rest)
     = x :: collect_netids rest)
  ∧ dict_get (load_groups_from_csv src).1 x = None
  ∧ (∀ before after,
       check_group_members_in_queue (before ++ x :: after)
         (load_groups_from_csv src).1 (load_groups_from_csv src).2
       = check_group_members_in_queue (before ++ after)
           (load_groups_from_csv src).1 (load_groups_from_csv src).2)
  ∧ ∀ netids g members,
      dict_get (check_group_members_in_queue netids
                  (load_groups_from_csv src).1 (load_groups_from_csv src).2) g
      = Some members →
      x ∉ members.
Proof.
  intros _ Hnorm Hne.
  assert (dict_get (load_groups_from_csv src).1 x = None) as Hx.
  { destruct (dict_get _ x) as [g|] eqn:Hg; [|done].
    apply roster_keys_normal in Hg. congruence. }
  split_and!; [|done| |].
  - intros t rest. unfold collect_netids. cbn.
    destruct x; [|done]. by subst m.
  - intros before after. by apply detect_skips_unknown.
  - intros netids g members Hout Hin.
    apply (detect_members_in_roster _ _ _ _ _ x) in Hout; [congruence|done].
Qed.

Lemma unnormalized_netid_not_matched_witness :
  dict_get (load_groups_from_csv
              (Reader [["m1"; "m2"]; ["abc123"; "bob"]] false)).1 " Abc123" = None
  ∧ check_group_members_in_queue (["bob"] ++ " Abc123" :: ["carol"])
      (load_groups_from_csv (Reader [["m1"; "m2"]; ["abc123"; "bob"]] false)).1
      (load_groups_from_csv (Reader [["m1"; "m2"]; ["abc123"; "bob"]] false)).2
    = [].
Proof.
  destruct (unnormalized_netid_not_matched
              (Reader [["m1"; "m2"]; ["abc123"; "bob"]] false) " Abc123" "abc123")
    as (_ & Hkey & Hskip & _); [vm_compute; reflexivity..|discriminate|].
  split; [exact Hkey|]. rewrite Hskip. vm_compute. reflexivity.
Defined.

(** ** More on the Roster Store *)

Lemma truthy_nonempty s : PyStr.truthy s = true ↔ s ≠ "".
Proof. by destruct s. Qed.

Lemma lower_empty s : PyStr.lower s = "" ↔ s = "".
Proof. by destruct s. Qed.

(** The cell loop appends the members of the row and maps each of them to
    the group of the row. *)
Lemma load_cells_members group_id row members d :
  (foldl (load_cell group_id) (members, d) row).1 = members ++ row_members row
  ∧ ∀ n, dict_get (foldl (load_cell group_id) (members, d) row).2 n
         = if decide (n ∈ row_members row) then Some group_id else dict_get d n.
Proof.
  unfold row_members. revert members d.
  induction row as [|cell row IH]; intros members d.
  - csimpl. by rewrite (right_id_L [] (++)).
  - cbn [foldl]. unfold load_cell at 2 4.
    destruct (PyStr.truthy (PyStr.strip cell)) eqn:Hcell.
    + apply truthy_nonempty in Hcell. rewrite filter_cons_True by done.
      destruct (IH (members ++ [PyStr.lower (PyStr.strip cell)])
                  (dict_set d (PyStr.lower (PyStr.strip cell)) group_id))
        as [Hmem Hget].
      split; [by rewrite Hmem, <- (assoc_L (++))|].
      intros n. rewrite Hget, dict_get_set. csimpl. fold (normalize cell).
      destruct (decide (n ∈ normalize <$> filter _ row)) as [Hin|Hin].
      * by rewrite decide_True by (by right).
      * destruct (decide (n = normalize cell)) as [->|Hne].
        -- by rewrite decide_True by left.
        -- rewrite decide_False; [done|]. by intros [?|?]%elem_of_cons.
    + rewrite filter_cons_False; [apply IH|].
      rewrite <- truthy_nonempty. by rewrite Hcell.
Qed.

Lemma load_row_fst group_idx row vs n :
  dict_get (load_row group_idx row vs).1 n
  = if decide (n ∈ row_members row) then Some (group_label group_idx)
    else dict_get vs.1 n.
Proof.
  unfold load_row.
  destruct (load_cells_members (group_label group_idx) row [] vs.1) as [_ Hget].
  destruct (foldl _ _ row) as [members d']. apply Hget.
Qed.

Lemma load_row_snd group_idx row vs g :
  dict_get (load_row group_idx row vs).2 g
  = if decide (g = group_label group_idx ∧ row_members row ≠ [])
    then Some (row_members row)
    else dict_get vs.2 g.
Proof.
  unfold load_row.
  destruct (load_cells_members (group_label group_idx) row [] vs.1) as [Hmem _].
  destruct (foldl _ _ row) as [members d']. cbn [fst snd app] in *. subst members.
  destruct (row_members row) as [|m ms] eqn:Hrow.
  - by rewrite decide_False by (by intros [_ ?]).
  - rewrite dict_get_set. destruct (decide (g = group_label group_idx)).
    + by rewrite decide_True.
    + by rewrite decide_False by (by intros [? _]).
Qed.

Lemma load_rows_snoc rows row group_idx vs :
  load_rows group_idx (rows ++ [row]) vs
  = load_row (group_idx + length rows) row (load_rows group_idx rows vs).
Proof.
  revert group_idx vs. induction rows as [|r rows IH]; intros group_idx vs.
  - by rewrite Nat.add_0_r.
  - cbn [app load_rows length]. by rewrite IH, Nat.add_succ_comm.
Qed.

(** The group-to-members view after the rows: a label is a key exactly when
    its row has a member, and then holds the members of that row. *)
Lemma load_rows_snd_iff rows group_idx g members :
  dict_get (load_rows group_idx rows empty_views).2 g = Some members ↔
  ∃ i row, g = group_label (group_idx + i) ∧ rows !! i = Some row
           ∧ row_members row = members ∧ members ≠ [].
Proof.
  induction rows as [|row rows IH] using rev_ind.
  - split; [done|]. by intros (i & row & _ & ? & _).
  - rewrite load_rows_snoc, load_row_snd.
    destruct (decide (g = group_label (group_idx + length rows)
                      ∧ row_members row ≠ [])) as [[-> Hne]|Hnot].
    + split.
      * intros [= <-]. exists (length rows), row. split_and!; [done| |done..].
        apply lookup_snoc_Some. by right.
      * intros (i & row' & Hi%group_label_inj & Hrow & <- & _).
        apply lookup_snoc_Some in Hrow as [[Hlt _]|[_ ->]]; [lia|done].
    + rewrite IH. split.
      * intros (i & row' & -> & Hrow & <- & Hne). exists i, row'.
        split_and!; [done| |done..]. apply lookup_snoc_Some. left.
        split; [by eapply lookup_lt_Some|done].
      * intros (i & row' & -> & Hrow & <- & Hne).
        apply lookup_snoc_Some in Hrow as [[_ Hrow]|[-> ->]].
        -- by exists i, row'.
        -- by destruct Hnot.
Qed.

(** The identifier-to-group view after the rows: an identifier is mapped to
    the label of the last row that has it as a member. *)
Lemma load_rows_fst_iff rows group_idx n g :
  dict_get (load_rows group_idx rows empty_views).1 n = Some g ↔
  ∃ i row, g = group_label (group_idx + i) ∧ rows !! i = Some row
           ∧ n ∈ row_members row
           ∧ ∀ j row', i < j → rows !! j = Some row' → n ∉ row_members row'.
Proof.
  revert g. induction rows as [|row rows IH] using rev_ind; intros g.
  - split; [done|]. by intros (i & row & _ & ? & _).
  - rewrite load_rows_snoc, load_row_fst.
    destruct (decide (n ∈ row_members row)) as [Hin|Hnin].
    + split.
      * intros [= <-]. exists (length rows), row. split_and!; [done| |done|].
        { apply lookup_snoc_Some. by right. }
        intros j row' Hj Hrow. apply lookup_lt_Some in Hrow.
        rewrite length_app in Hrow. simpl in Hrow. lia.
      * intros (i & row' & -> & Hrow & _ & Hlast).
        apply lookup_snoc_Some in Hrow as [[Hlt _]|[-> _]]; [|done].
        destruct (Hlast (length rows) row); [done| |done].
        apply lookup_snoc_Some. by right.
    + rewrite IH. split.
      * intros (i & row' & -> & Hrow & Hin & Hlast). exists i, row'.
        split_and!; [done| |done|].
        { apply lookup_snoc_Some. left. split; [by eapply lookup_lt_Some|done]. }
        intros j row'' Hj [[_ Hrow']|[_ <-]]%lookup_snoc_Some; [by eapply Hlast|done].
      * intros (i & row' & -> & Hrow & Hin & Hlast).
        apply lookup_snoc_Some in Hrow as [[Hlt Hrow]|[_ ->]]; [|done].
        exists i, row'. split_and!; [done..|].
        intros j row'' Hj Hrow'. apply (Hlast j row''); [done|].
        apply lookup_snoc_Some. left. split; [by eapply lookup_lt_Some|done].
Qed.

(** X1.  After a load of an ASCII roster that got past the header, the
    group-to-members view has a key exactly for the data rows with a cell
    that is not blank: the i-th data row gives "Group i" (rows without
    members use up their number) and its value is the row's non-blank
    cells, stripped and lower-cased, in the order of the row. *)
Theorem group_to_members_by_row (headers : list string) (rows : list (list string))
    (fails : bool) (g : string) (members : list string) :
  ascii_rows rows →
  dict_get (load_groups_from_csv (Reader (headers :: rows) fails)).2 g = Some members ↔
  ∃ i row, g = group_label (S i) ∧ rows !! i = Some row
           ∧ members = normalize <$> filter (λ cell, PyStr.strip cell ≠ "") row
           ∧ members ≠ [].
Proof.
  intros _. unfold load_groups_from_csv. cbn [load_try fst]. rewrite load_rows_snd_iff.
  unfold row_members. split.
  - intros (i & row & -> & ? & <- & ?). by exists i, row.
  - intros (i & row & -> & ? & -> & ?). by exists i, row.
Qed.

Lemma group_to_members_by_row_witness :
  dict_get (load_groups_from_csv
              (Reader [["m1"; "m2"; "m3"]; [""]; [" ABC123"; ""; "Bob "]] false)).2
    "Group 2" = Some ["abc123"; "bob"].
Proof.
  apply (group_to_members_by_row ["m1"; "m2"; "m3"] [[""]; [" ABC123"; ""; "Bob "]]).
  - repeat constructor.
  - exists 1, [" ABC123"; ""; "Bob "]. split_and!; [reflexivity..|discriminate].
Defined.

(** X2.  Last write wins: after a load of an ASCII roster that got past the
    header, an identifier is mapped to "Group i" exactly when the i-th data
    row is the last row that has the identifier among its members. *)
Theorem netid_to_group_last_row (headers : list string) (rows : list (list string))
    (fails : bool) (n g : string) :
  ascii_rows rows →
  dict_get (load_groups_from_csv (Reader (headers :: rows) fails)).1 n = Some g ↔
  ∃ i row, g = group_label (S i) ∧ rows !! i = Some row
           ∧ n ∈ row_members row
           ∧ ∀ j row', i < j → rows !! j = Some row' → n ∉ row_members row'.
Proof.
  intros _. unfold load_groups_from_csv. cbn [load_try fst]. apply load_rows_fst_iff.
Qed.

Lemma netid_to_group_last_row_witness :
  dict_get (load_groups_from_csv
              (Reader [["m1"; "m2"]; ["abc123"; "bob"]; ["carol"; " ABC123"]] false)).1
    "abc123" = Some "Group 2".
Proof.
  apply (netid_to_group_last_row ["m1"; "m2"] [["abc123"; "bob"]; ["carol"; " ABC123"]]).
  - repeat constructor.
  - exists 1, ["carol"; " ABC123"]. split_and!; [reflexivity..| |].
    + right. left.
    + intros j row' Hj Hrow. apply lookup_lt_Some in Hrow. simpl in Hrow. lia.
Defined.

(** In a list, an element with a decidable property is followed by a last
    one with it. *)
Lemma exists_last_with {A} (P : A → Prop) `{!∀ x, Decision (P x)} (l : list A) i x :
  l !! i = Some x → P x →
  ∃ j y, i ≤ j ∧ l !! j = Some y ∧ P y ∧ ∀ k z, j < k → l !! k = Some z → ¬ P z.
Proof.
  revert i x. induction l as [|a l IH] using rev_ind; intros i x Hi HP; [done|].
  destruct (decide (P a)) as [Ha|Ha].
  - exists (length l), a. split_and!; [|by apply lookup_snoc_Some; right|done|].
    + apply lookup_lt_Some in Hi. rewrite length_app in Hi. simpl in Hi. lia.
    + intros k z Hk Hz%lookup_lt_Some. rewrite length_app in Hz. simpl in Hz. lia.
  - apply lookup_snoc_Some in Hi as [[Hlt Hi]|[_ ->]]; [|done].
    destruct (IH i x Hi HP) as (j & y & Hij & Hj & Hy & Hlast).
    exists j, y. split_and!; [done| |done|].
    + apply lookup_snoc_Some. left. split; [by eapply lookup_lt_Some|done].
    + intros k z Hk [[_ Hz]|[_ <-]]%lookup_snoc_Some; [by eapply Hlast|done].
Qed.

Lemma row_members_normal row m : m ∈ row_members row → m ≠ "" ∧ normalize m = m.
Proof.
  unfold row_members. intros (cell & -> & [Hcell _]%list_elem_of_filter)%list_elem_of_fmap.
  split; [|apply PyStrFacts.normal_form_idemp].
  unfold normalize. by rewrite lower_empty.
Qed.

Lemma load_groups_snd_iff src g members :
  dict_get (load_groups_from_csv src).2 g = Some members ↔
  ∃ i row, g = group_label (S i) ∧ data_rows src !! i = Some row
           ∧ row_members row = members ∧ members ≠ [].
Proof.
  destruct src as [|[|headers rows] fails]; cbn;
    [by split; [|intros (i & row & _ & ? & _)]..|].
  apply load_rows_snd_iff.
Qed.

Lemma load_groups_fst_iff src n g :
  dict_get (load_groups_from_csv src).1 n = Some g ↔
  ∃ i row, g = group_label (S i) ∧ data_rows src !! i = Some row
           ∧ n ∈ row_members row
           ∧ ∀ j row', i < j → data_rows src !! j = Some row' → n ∉ row_members row'.
Proof.
  destruct src as [|[|headers rows] fails]; cbn;
    [by split; [|intros (i & row & _ & ? & _)]..|].
  apply load_rows_fst_iff.
Qed.





(** X3.  In a loaded roster no group has an empty member list, and every
    listed member is a non-empty string in normal form: stripping it and
    lower-casing it again gives it back. *)
Theorem group_members_nonempty_normal (src : csv_source) (g : string)
    (members : list string) :
  dict_get (load_groups_from_csv src).2 g = Some members →
  members ≠ [] ∧ ∀ m, m ∈ members → m ≠ "" ∧ normalize m = m.
Proof.
  intros (i & row & _ & _ & <- & Hne)%load_groups_snd_iff.
  split; [done|]. apply row_members_normal.
Qed.

Lemma group_members_nonempty_normal_witness :
  ["abc123"; "bob"] ≠ []
  ∧ ∀ m, m ∈ ["abc123"; "bob"] → m ≠ "" ∧ normalize m = m.
Proof.
  apply (group_members_nonempty_normal
           (Reader [["m1"; "m2"]; [" ABC123"; ""; "Bob "]] false) "Group 1").
  vm_compute. reflexivity.
Defined.

(** X4.  Every member listed under a group is a key of the
    identifier-to-group view; it is mapped to a group of the same row or of
    a later one (a later row that repeats the identifier takes it over). *)
Theorem listed_member_has_group (src : csv_source) (g m : string)
    (members : list string) :
  dict_get (load_groups_from_csv src).2 g = Some members →
  m ∈ members →
  ∃ i j, g = group_label i ∧ i ≤ j
         ∧ dict_get (load_groups_from_csv src).1 m = Some (group_label j).
Proof.
  intros (i & row & -> & Hrow & <- & _)%load_groups_snd_iff Hin.
  destruct (exists_last_with (λ r, m ∈ row_members r) _ i row Hrow Hin)
    as (j & row' & Hij & Hrow' & Hin' & Hlast).
  exists (S i), (S j). split_and!; [done|lia|].
  apply load_groups_fst_iff. by exists j, row'.
Qed.

Lemma listed_member_has_group_witness :
  ∃ i j, "Group 1" = group_label i ∧ i ≤ j
         ∧ dict_get (load_groups_from_csv
                       (Reader [["m1"; "m2"]; ["abc123"; "bob"]; ["carol"; " ABC123"]]
                          false)).1 "abc123"
           = Some (group_label j).
Proof.
  apply (listed_member_has_group
           (Reader [["m1"; "m2"]; ["abc123"; "bob"]; ["carol"; " ABC123"]] false)
           "Group 1" "abc123" ["abc123"; "bob"]).
  - vm_compute. reflexivity.
  - left.
Defined.

Lemma dict_set_length_fresh {V} (d : dict V) k v :
  dict_get d k = None → length (dict_set d k v) = S (length d).
Proof.
  induction d as [|[k0 v0] d IH]; cbn [dict_get dict_set]; [done|].
  destruct (decide (k = k0)); [done|]. intros Hk. cbn [length]. by rewrite IH.
Qed.

Lemma load_row_snd_eq group_idx row vs :
  (load_row group_idx row vs).2
  = match row_members row with
    | [] => vs.2
    | _ :: _ => dict_set vs.2 (group_label group_idx) (row_members row)
    end.
Proof.
  unfold load_row.
  destruct (load_cells_members (group_label group_idx) row [] vs.1) as [Hmem _].
  destruct (foldl _ _ row) as [members d']. cbn [fst snd app] in *. by subst members.
Qed.

Lemma load_cells_wf group_id row members d :
  dict_wf d → dict_wf (foldl (load_cell group_id) (members, d) row).2.
Proof.
  revert members d. induction row as [|cell row IH]; intros members d Hwf; [done|].
  cbn [foldl]. unfold load_cell at 2.
  destruct (PyStr.truthy (PyStr.strip cell)); apply IH; [by apply dict_set_wf|done].
Qed.

Lemma load_row_wf group_idx row vs :
  dict_wf vs.1 → dict_wf vs.2 →
  dict_wf (load_row group_idx row vs).1 ∧ dict_wf (load_row group_idx row vs).2.
Proof.
  intros Hwf1 Hwf2. split.
  - unfold load_row.
    pose proof (load_cells_wf (group_label group_idx) row [] vs.1 Hwf1) as Hwf.
    by destruct (foldl _ _ row).
  - rewrite load_row_snd_eq. destruct (row_members row); [done|by apply dict_set_wf].
Qed.

Lemma load_rows_wf rows group_idx vs :
  dict_wf vs.1 → dict_wf vs.2 →
  dict_wf (load_rows group_idx rows vs).1 ∧ dict_wf (load_rows group_idx rows vs).2.
Proof.
  revert group_idx vs. induction rows as [|row rows IH]; intros group_idx vs H1 H2; [done|].
  cbn [load_rows]. by apply IH; apply load_row_wf.
Qed.

Lemma load_rows_snd_length rows group_idx :
  length (load_rows group_idx rows empty_views).2
  = length (filter (λ row, row_members row ≠ []) rows).
Proof.
  induction rows as [|row rows IH] using rev_ind; [done|].
  rewrite load_rows_snoc, load_row_snd_eq, filter_app, length_app, <- IH.
  destruct (row_members row) as [|m ms] eqn:Hrow.
  - rewrite filter_cons_False by (by rewrite Hrow; intros []). simpl. lia.
  - rewrite filter_cons_True by (by rewrite Hrow). simpl.
    rewrite dict_set_length_fresh; [lia|].
    destruct (dict_get _ (group_label (group_idx + length rows))) as [l|] eqn:Hl; [|done].
    apply load_rows_snd_iff in Hl as (i & row' & Hi%group_label_inj & Hrow'%lookup_lt_Some & _).
    lia.
Qed.

Lemma load_groups_snd_length src :
  length (load_groups_from_csv src).2
  = length (filter (λ row, row_members row ≠ []) (data_rows src)).
Proof. destruct src as [|[|headers rows] fails]; [done..|]. apply load_rows_snd_length. Qed.

(** X5.  Both views of a loaded roster have pairwise distinct keys, and for
    an ASCII roster the number of groups, which [on_ready] prints, is the
    number of data rows with at least one cell that is not blank. *)
Theorem loaded_group_count (src : csv_source) :
  ascii_rows (data_rows src) →
  dict_wf (load_groups_from_csv src).1
  ∧ dict_wf (load_groups_from_csv src).2
  ∧ (on_ready src).2 = length (filter (λ row, row_members row ≠ []) (data_rows src)).
Proof.
  intros _. split_and!; [..|apply load_groups_snd_length];
    (destruct src as [|[|headers rows] fails]; try apply NoDup_nil_2;
     by apply load_rows_wf; apply NoDup_nil_2).
Qed.

Lemma loaded_group_count_witness :
  (on_ready (Reader [["m1"; "m2"]; ["alice"; "bob"]; [" "; ""]; ["carol"]] false)).2 = 2.
Proof.
  destruct (loaded_group_count
              (Reader [["m1"; "m2"]; ["alice"; "bob"]; [" "; ""]; ["carol"]] false))
    as (_ & _ & Hcount); [repeat constructor|].
  rewrite Hcount. reflexivity.
Defined.



(** ** More on the Group-Overlap Detector *)

Lemma queued_of_app netid_to_group g netids more :
  queued_of netid_to_group g (netids ++ more)
  = queued_of netid_to_group g netids ++ queued_of netid_to_group g more.
Proof. apply filter_app. Qed.

(** X7.  With a loaded roster, the members that the detector lists for a
    group all belong to that group's roster list; in particular the group
    is one of the roster. *)
Theorem overlap_members_in_roster (src : csv_source) (netids : list string)
    (g : string) (members : list string) :
  dict_get (check_group_members_in_queue netids
              (load_groups_from_csv src).1 (load_groups_from_csv src).2) g
  = Some members →
  ∃ roster_members,
    dict_get (load_groups_from_csv src).2 g = Some roster_members
    ∧ members ⊆ roster_members.
Proof.
  intros Hout.
  assert (∀ m, m ∈ members → dict_get (load_groups_from_csv src).1 m = Some g) as Hin.
  { intros m. by eapply detect_members_in_roster. }
  rewrite detect_get in Hout. case_decide as Hlen; [|done].
  injection Hout as <-.
  destruct (queued_of _ g netids) as [|m ms] eqn:Hq; [simpl in Hlen; lia|].
  destruct (load_groups_inv src m g) as (_ & _ & roster_members & Hg & _).
  { apply Hin. left. }
  exists roster_members. split; [done|]. intros x Hx.
  destruct (load_groups_inv src x g (Hin x Hx)) as (_ & _ & ms' & Hg' & Hx').
  congruence.
Qed.

Lemma overlap_members_in_roster_witness :
  ∃ roster_members,
    dict_get (load_groups_from_csv
                (Reader [["a"; "b"; "c"]; ["alice"; "bob"; "eve"]] false)).2 "Group 1"
    = Some roster_members
    ∧ ["eve"; "alice"] ⊆ roster_members.
Proof.
  apply (overlap_members_in_roster
           (Reader [["a"; "b"; "c"]; ["alice"; "bob"; "eve"]] false)
           ["eve"; "zed"; "alice"]).
  vm_compute. reflexivity.
Defined.

(** X8.  More queue entries never take a group out of the overlap result:
    a group listed for [netids] is listed for [netids ++ more], and its old
    list is the beginning of its new one. *)
Theorem detect_grows_with_queue (netids more : list string)
    (netid_to_group : dict string) (group_to_members : dict (list string))
    (g : string) (members : list string) :
  dict_get (check_group_members_in_queue netids netid_to_group group_to_members) g
  = Some members →
  ∃ rest,
    dict_get (check_group_members_in_queue (netids ++ more)
                netid_to_group group_to_members) g
    = Some (members ++ rest)
    ∧ rest = queued_of netid_to_group g more.
Proof.
  rewrite !detect_get, queued_of_app. case_decide as Hlen; [|done]. intros [= <-].
  exists (queued_of netid_to_group g more). split; [|done].
  rewrite decide_True; [done|]. rewrite length_app. lia.
Qed.

Lemma detect_grows_with_queue_witness :
  ∃ rest,
    dict_get (check_group_members_in_queue (["alice"; "bob"] ++ ["carol"; "alice"])
                roster_ex.1 roster_ex.2) "Group 1"
    = Some (["alice"; "bob"] ++ rest)
    ∧ rest = queued_of roster_ex.1 "Group 1" ["carol"; "alice"].
Proof.
  apply (detect_grows_with_queue ["alice"; "bob"] ["carol"; "alice"]).
  vm_compute. reflexivity.
Defined.

Lemma detect_loop_known netid_to_group netids st :
  foldl (detect_step netid_to_group) st
    (filter (λ n, is_Some (dict_get netid_to_group n)) netids)
  = foldl (detect_step netid_to_group) st netids.
Proof.
  revert st. induction netids as [|n netids IH]; intros st; [done|].
  destruct (dict_get netid_to_group n) as [g|] eqn:Hn.
  - rewrite filter_cons_True by (by rewrite Hn). cbn [foldl]. apply IH.
  - rewrite filter_cons_False by (rewrite Hn; by intros []).
    cbn [foldl]. unfold detect_step at 3. rewrite Hn. apply IH.
Qed.

(** X9.  Entries of people who are not in the roster change nothing:
    leaving them out of the input gives the same overlap result, group for
    group and in the same order. *)
Theorem detect_ignores_unknown (netids : list string)
    (netid_to_group : dict string) (group_to_members : dict (list string)) :
  check_group_members_in_queue
    (filter (λ n, is_Some (dict_get netid_to_group n)) netids)
    netid_to_group group_to_members
  = check_group_members_in_queue netids netid_to_group group_to_members.
Proof. unfold check_group_members_in_queue. by rewrite detect_loop_known. Qed.

(** ** More on the Change Tracker *)

Lemma dict_set_fresh {V} (d : dict V) k v :
  dict_get d k = None → dict_set d k v = d ++ [(k, v)].
Proof.
  induction d as [|[k0 v0] d IH]; cbn [dict_get dict_set]; [done|].
  destruct (decide (k = k0)); [done|]. intros Hk. by rewrite IH.
Qed.

(** The loop [for k, v in d.items(): if P k v: acc[k] = v] appends the
    chosen items in the order of [d] when the keys involved are all
    different. *)
Lemma foldl_set_filter {V} (P : string → V → bool) (d acc : list (string * V)) :
  NoDup (acc.*1 ++ d.*1) →
  foldl (λ acc kv, if P kv.1 kv.2 then dict_set acc kv.1 kv.2 else acc) acc d
  = acc ++ filter (λ kv, P kv.1 kv.2) d.
Proof.
  revert acc. induction d as [|[k v] d IH]; intros acc Hnd.
  - cbn. by rewrite (right_id_L [] (++)).
  - cbn [foldl fst snd]. rewrite fmap_cons in Hnd. cbn [fst] in Hnd.
    destruct (P k v) eqn:HP.
    + rewrite filter_cons_True by (by cbn; rewrite HP).
      assert (dict_get acc k = None) as Hk.
      { apply dict_get_None. apply NoDup_app in Hnd as (_ & Hdisj & _).
        intros Hin. apply (Hdisj k Hin). left. }
      rewrite (dict_set_fresh _ _ _ Hk), IH.
      * by rewrite <- (assoc_L (++)).
      * rewrite fmap_app. cbn. by rewrite <- (assoc_L (++)).
    + rewrite filter_cons_False by (cbn; rewrite HP; by intros []).
      apply IH. apply NoDup_app in Hnd as (Hacc & Hdisj & [_ Hd]%NoDup_cons).
      apply NoDup_app. split_and!; [done| |done].
      intros x Hx Hxd. apply (Hdisj x Hx). by right.
Qed.

(** X10.  The change tracker keeps the order: its output is the current
    overlap result with the groups that are not reported left out.  With
    nothing remembered from before it is the whole current result. *)
Theorem new_groups_keeps_order (current previous : dict (list string)) :
  dict_wf current →
  new_groups current previous
  = filter (λ item, reported previous item.1 item.2) (current : list _)
  ∧ new_groups current [] = current.
Proof.
  intros Hwf. unfold new_groups. rewrite !new_groups_foldl.
  rewrite !foldl_set_filter by done. split; [done|].
  cbn [app]. induction current as [|[g members] current IH]; [done|].
  rewrite filter_cons_True by done. f_equal. apply IH.
  by apply NoDup_cons in Hwf as [_ ?].
Qed.

Lemma new_groups_keeps_order_witness :
  new_groups [("Group 2", ["a"; "b"]); ("Group 1", ["c"; "d"])] []
  = [("Group 2", ["a"; "b"]); ("Group 1", ["c"; "d"])].
Proof.
  apply (new_groups_keeps_order
           [("Group 2", ["a"; "b"]); ("Group 1", ["c"; "d"])] []).
  unfold dict_wf. cbn. apply NoDup_cons. split; [|apply NoDup_singleton].
  by intros [=]%list_elem_of_singleton.
Defined.

(** ** More on the polling cycle *)

(** X11.  A cycle passes at most one message to the channel.  It passes one
    exactly when it has a queue id, the fetch gave at least one question,
    the change tracker has something to report, the configured channel id
    is an integer and positive, and the channel is found; the message is
    the formatted tracker output. *)
Theorem alert_sent_iff (env : cycle_env) (previous : dict (list string)) :
  let new := new_groups (groups_in_queue_of env (fetched env)) previous in
  length (sent_to_channel (check_queue_for_groups env previous)) ≤ 1
  ∧ (sent_to_channel (check_queue_for_groups env previous) ≠ [] ↔
     DEFAULT_QUEUE_ID env ≠ "" ∧ fetched env ≠ [] ∧ new ≠ []
     ∧ (∃ alert_channel_id,
          ALERT_CHANNEL_ID env = Some alert_channel_id ∧ (0 < alert_channel_id)%Z)
     ∧ is_Some (channel env))
  ∧ ∀ message, message ∈ sent_to_channel (check_queue_for_groups env previous) →
               message = format_groups_message new (group_to_members env).
Proof.
  intros new. rewrite check_queue_for_groups_cases. fold new.
  case_bool_decide as Hearly; cbn [sent_to_channel].
  - split_and!; [simpl; lia| |by intros ? ?%elem_of_nil].
    split; [done|]. intros (? & ? & _). by destruct Hearly.
  - assert (DEFAULT_QUEUE_ID env ≠ "" ∧ fetched env ≠ []) as [Hid Hq].
    { split; intros ?; apply Hearly; [by left|by right]. }
    unfold dispatch. destruct new as [|item new'].
    { split_and!; [simpl; lia| |by intros ? ?%elem_of_nil].
      split; [done|]. by intros (_ & _ & ? & _). }
    destruct (ALERT_CHANNEL_ID env) as [id|] eqn:Hch;
      [case_bool_decide as Hpos; [destruct (channel env) as [send|] eqn:Hfound|]|];
      cbn [fst].
    + split_and!; [simpl; lia| |by intros ? ->%list_elem_of_singleton].
      split; [|done]. intros _. split_and!; [done..| |done]. by exists id.
    + split_and!; [simpl; lia| |by intros ? ?%elem_of_nil].
      split; [done|]. by intros (_ & _ & _ & _ & [? [=]]).
    + split_and!; [simpl; lia| |by intros ? ?%elem_of_nil].
      split; [done|]. intros (_ & _ & _ & (id' & [= <-] & ?) & _). done.
    + split_and!; [simpl; lia| |by intros ? ?%elem_of_nil].
      split; [done|]. by intros (_ & _ & _ & (id' & [=] & _) & _).
Qed.



(** X13.  A cycle that gets no question, or has no queue id, leaves the
    remembered overlap result alone.  So a group that was announced in a
    cycle that ran to its end, then seen with an empty queue, and is back
    with the same people, is not announced again. *)
Theorem empty_queue_keeps_memory (env env_later : cycle_env)
    (previous : dict (list string)) :
  cycle_raised (check_queue_for_groups env previous) = false →
  DEFAULT_QUEUE_ID env_later = "" ∨ fetched env_later = [] →
  state_after
    (check_queue_for_groups env_later
       (state_after (check_queue_for_groups env previous)))
  = state_after (check_queue_for_groups env previous)
  ∧ sent_to_channel
      (check_queue_for_groups env
         (state_after
            (check_queue_for_groups env_later
               (state_after (check_queue_for_groups env previous))))) = [].
Proof.
  intros Hok Hempty.
  assert (check_queue_for_groups env_later
            (state_after (check_queue_for_groups env previous))
          = CycleResult [] false (state_after (check_queue_for_groups env previous)))
    as ->.
  { rewrite (check_queue_for_groups_cases env_later). by rewrite bool_decide_true. }
  cbn [state_after]. split; [done|]. by rewrite cycle_after_cycle_silent.
Qed.

Lemma empty_queue_keeps_memory_witness :
  sent_to_channel (check_queue_for_groups env_ex []) ≠ []
  ∧ sent_to_channel
      (check_queue_for_groups env_ex
         (state_after
            (check_queue_for_groups env_down
               (state_after (check_queue_for_groups env_ex []))))) = [].
Proof.
  split; [vm_compute; discriminate|].
  apply (empty_queue_keeps_memory env_ex env_down []); [reflexivity|by right].
Defined.

(** X14.  A cycle that gets questions but finds no overlap forgets what was
    remembered.  So a group that was announced, then seen gone while other
    people were queued, and is back, is announced again: the third cycle
    passes to the channel what the alert step gives for its whole overlap
    result. *)
Theorem quiet_cycle_clears_memory (env env_later : cycle_env)
    (previous : dict (list string)) :
  DEFAULT_QUEUE_ID env ≠ "" → fetched env ≠ [] →
  DEFAULT_QUEUE_ID env_later ≠ "" → fetched env_later ≠ [] →
  groups_in_queue_of env_later (fetched env_later) = [] →
  check_queue_for_groups env_later previous = CycleResult [] false []
  ∧ sent_to_channel
      (check_queue_for_groups env
         (state_after
            (check_queue_for_groups env_later
               (state_after (check_queue_for_groups env previous)))))
    = (dispatch env (groups_in_queue_of env (fetched env))).1.
Proof.
  intros Hid Hq Hid' Hq' Hnone.
  assert (∀ prev, check_queue_for_groups env_later prev = CycleResult [] false [])
    as Hquiet.
  { intros prev. rewrite check_queue_for_groups_cases.
    rewrite bool_decide_false by (by intros [?|?]). by rewrite Hnone. }
  split; [apply Hquiet|]. rewrite Hquiet. cbn [state_after].
  rewrite check_queue_for_groups_cases.
  rewrite bool_decide_false by (by intros [?|?]). cbn [sent_to_channel].
  unfold new_groups. rewrite new_groups_foldl, foldl_set_filter.
  - cbn [app]. do 2 f_equal.
    generalize (groups_in_queue_of env (fetched env)) as current.
    intros current. induction current as [|[g members] current IH]; [done|].
    rewrite filter_cons_True by done. by f_equal.
  - apply detect_wf.
Qed.

Lemma quiet_cycle_clears_memory_witness :
  check_queue_for_groups env_quiet previous_ex = CycleResult [] false []
  ∧ sent_to_channel
      (check_queue_for_groups env_ex
         (state_after
            (check_queue_for_groups env_quiet
               (state_after (check_queue_for_groups env_ex [])))))
    = (dispatch env_ex (groups_in_queue_of env_ex (fetched env_ex))).1.
Proof.
  split.
  - apply (quiet_cycle_clears_memory env_ex env_quiet previous_ex);
      vm_compute; (discriminate || reflexivity).
  - apply (quiet_cycle_clears_memory env_ex env_quiet []);
      vm_compute; (discriminate || reflexivity).
Defined.

(** X15.  A queue entry without an identifier -- no [askedBy], no [netid]
    in it, or an empty one -- is skipped and does not disturb the entries
    around it: the identifiers collected, and so the overlap result, are
    those of the queue without that entry. *)
Theorem entry_without_netid_skipped (env : cycle_env) (q : question)
    (before after : list question) :
  extract_netid q = None ∨ extract_netid q = Some "" →
  collect_netids (before ++ q :: after) = collect_netids (before ++ after)
  ∧ groups_in_queue_of env (before ++ q :: after)
    = groups_in_queue_of env (before ++ after).
Proof.
  intros Hq.
  assert (collect_netids (before ++ q :: after) = collect_netids (before ++ after))
    as Heq; [|split; [done|unfold groups_in_queue_of; by rewrite Heq]].
  unfold collect_netids. rewrite !omap_app. f_equal. cbn.
  by destruct Hq as [-> | ->].
Qed.

Lemma entry_without_netid_skipped_witness :
  collect_netids ([ask "alice"] ++ Question (Some (Asker None)) None :: [ask "bob"])
  = collect_netids ([ask "alice"] ++ [ask "bob"]).
Proof.
  apply (entry_without_netid_skipped env_ex (Question (Some (Asker None)) None)
           [ask "alice"] [ask "bob"]).
  by left.
Defined.

(** ** More on the set-interval command *)

(** X16.  The floor is kept by the command: whatever is requested, and
    however often, an interval that is at least 60 stays at least 60, and
    after a series of requests the interval is the last accepted one (or
    the old one when none was accepted). *)
Theorem interval_stays_above_floor (CHECK_INTERVAL : Z) (requests : list Z) :
  (60 ≤ CHECK_INTERVAL)%Z →
  (60 ≤ set_interval_commands CHECK_INTERVAL requests)%Z
  ∧ set_interval_commands CHECK_INTERVAL requests
    = default CHECK_INTERVAL (last (filter (λ s, (60 ≤ s)%Z) requests)).
Proof.
  unfold set_interval_commands. revert CHECK_INTERVAL.
  induction requests as [|s requests IH] using rev_ind; intros interval Hfloor; [done|].
  rewrite foldl_snoc, filter_app. unfold set_interval_command at 1 3.
  destruct (IH interval Hfloor) as [IH1 IH2].
  case_bool_decide as Hs; cbn [fst].
  - rewrite filter_cons_False by lia. by rewrite filter_nil, (right_id_L [] (++)).
  - rewrite filter_cons_True by lia. rewrite filter_nil, last_snoc. split; [lia|done].
Qed.

Lemma interval_stays_above_floor_witness :
  (60 ≤ set_interval_commands 300 [30; 120; 0; -5])%Z
  ∧ set_interval_commands 300 [30; 120; 0; -5]%Z = 120%Z.
Proof.
  apply (interval_stays_above_floor 300 [30; 120; 0; -5]%Z). lia.
Defined.

(** ** Format check *)

Example topic_ok_ex :
  topic_ok "[MP] ,Group 12, Computer 3 : page fault in my handler" = true
  ∧ topic_ok ("[Conceptual] ,Group 1, Computer 40 : x" +:+ nl) = true
  ∧ topic_ok "[MP], Group 12, Computer 3 : help" = false
  ∧ topic_ok "[MP] ,Group 12, Computer 3 : " = false
  ∧ topic_ok ("[MP] ,Group 12, Computer 3 : a" +:+ nl +:+ "b") = false.
Proof. vm_compute. by split_and!. Qed.

Example check_message_format_ex :
  check_message_format ["alice"; "bob"]
    ["[MP] ,Group 1, Computer 2 : help"; "help me"]
  = Some (format_header +:+ "Question 1 with netid bob has wrong format: help me").
Proof. vm_compute. reflexivity. Qed.

Module PyReFacts.
Import PyRe.

Lemma app_nil_l (s : string) : "" +:+ s = s.
Proof. done. Qed.

Lemma app_cons c (a b : string) : String c a +:+ b = String c (a +:+ b).
Proof. done. Qed.

Lemma app_eq_nil (a b : string) : a +:+ b = "" → a = "" ∧ b = "".
Proof. destruct a; [done|]. by rewrite app_cons. Qed.

Lemma app_eq_cons c s (a b : string) :
  a +:+ b = String c s →
  (a = "" ∧ b = String c s) ∨ ∃ a', a = String c a' ∧ s = a' +:+ b.
Proof.
  destruct a as [|c' a']; [by left|]. rewrite app_cons. intros [= -> <-].
  right. by exists a'.
Qed.

Lemma lang_eps_iff s : lang Eps s ↔ s = "".
Proof. split; [by inversion 1|intros ->; constructor]. Qed.

Lemma lang_cls_iff p s : lang (Cls p) s ↔ ∃ c, s = String c "" ∧ p c = true.
Proof.
  split; [inversion 1; subst; by eexists|].
  intros (c & -> & Hp). by constructor.
Qed.

Lemma lang_cat_iff r1 r2 s :
  lang (Cat r1 r2) s ↔ ∃ s1 s2, s = s1 +:+ s2 ∧ lang r1 s1 ∧ lang r2 s2.
Proof.
  split; [inversion 1; subst; by eexists _, _|].
  intros (s1 & s2 & -> & H1 & H2). by constructor.
Qed.

Lemma lang_alt_iff r1 r2 s : lang (Alt r1 r2) s ↔ lang r1 s ∨ lang r2 s.
Proof.
  split; [inversion 1; subst; [by left|by right]|].
  intros [H|H]; [by apply lang_alt_l|by apply lang_alt_r].
Qed.

Lemma lang_nul s : ¬ lang Nul s.
Proof. inversion 1. Qed.

Lemma nullable_lang r : nullable r = true ↔ lang r "".
Proof.
  induction r as [| |p|r1 IH1 r2 IH2|r1 IH1 r2 IH2|r IH]; cbn [nullable].
  - split; [done|by intros ?%lang_nul].
  - split; [constructor|done].
  - split; [done|]. by intros (c & [=] & _)%lang_cls_iff.
  - rewrite andb_true_iff, IH1, IH2, lang_cat_iff. split.
    + intros [H1 H2]. by exists "", "".
    + intros (s1 & s2 & [-> ->]%eq_sym%app_eq_nil & H1 & H2). done.
  - by rewrite orb_true_iff, IH1, IH2, lang_alt_iff.
  - split; [constructor|done].
Qed.

(** A non-empty string of a repetition starts with a non-empty string of
    the repeated expression. *)
Lemma lang_star_cons_inv r c s :
  lang (Star r) (String c s) →
  ∃ s1 s2, s = s1 +:+ s2 ∧ lang r (String c s1) ∧ lang (Star r) s2.
Proof.
  remember (Star r) as r' eqn:Hr. remember (String c s) as t eqn:Ht.
  intros H. revert Hr Ht.
  induction H as [| | | | | |r0 s1 s2 H1 _ H2 IH2]; try done.
  intros [= ->] Hs.
  apply app_eq_cons in Hs as [[-> ->]|(s1' & -> & ->)]; [by apply IH2|].
  by exists s1', s2.
Qed.

Lemma deriv_lang c r s : lang (deriv c r) s ↔ lang r (String c s).
Proof.
  revert s. induction r as [| |p|r1 IH1 r2 IH2|r1 IH1 r2 IH2|r IH]; intros s; cbn [deriv].
  - split; by intros ?%lang_nul.
  - split; [by intros ?%lang_nul|by intros [=]%lang_eps_iff].
  - rewrite lang_cls_iff. destruct (p c) eqn:Hp.
    + rewrite lang_eps_iff. split; [intros ->; by exists c|].
      by intros (c' & [= -> ->] & _).
    + split; [by intros ?%lang_nul|]. intros (c' & [= -> ->] & ?). congruence.
  - rewrite lang_alt_iff, !lang_cat_iff. split.
    + intros [(s1 & s2 & -> & H1%IH1 & H2)|H].
      * exists (String c s1), s2. by rewrite app_cons.
      * destruct (nullable r1) eqn:Hn; [|by apply lang_nul in H].
        exists "", (String c s). split_and!; [done| |by apply IH2].
        by apply nullable_lang.
    + intros (s1 & s2 & [[-> ->]|(s1' & -> & ->)]%eq_sym%app_eq_cons & H1 & H2).
      * right. apply nullable_lang in H1 as ->. by apply IH2.
      * left. exists s1', s2. split_and!; [done|by apply IH1|done].
  - by rewrite !lang_alt_iff, IH1, IH2.
  - rewrite lang_cat_iff. split.
    + intros (s1 & s2 & -> & H1%IH & H2). rewrite <- app_cons. by constructor.
    + intros (s1 & s2 & -> & H1 & H2)%lang_star_cons_inv.
      exists s1, s2. split_and!; [done|by apply IH|done].
Qed.

(** The matcher decides membership. *)
Lemma fullmatch_lang r s : fullmatch r s = true ↔ lang r s.
Proof.
  revert r. induction s as [|c s IH]; intros r; cbn [fullmatch].
  - apply nullable_lang.
  - by rewrite IH, deriv_lang.
Qed.

Lemma lang_Lit w s : lang (Lit w) s ↔ s = w.
Proof.
  revert s. induction w as [|c w IH]; intros s; cbn [Lit].
  - apply lang_eps_iff.
  - rewrite lang_cat_iff. split.
    + intros (s1 & s2 & -> & (c' & -> & Hc)%lang_cls_iff & ->%IH).
      apply Ascii.eqb_eq in Hc as ->. done.
    + intros ->. exists (String c ""), w. split_and!; [done| |by apply IH].
      apply lang_cls_iff. exists c. split; [done|apply Ascii.eqb_refl].
Qed.

Lemma lang_star_cls p s : lang (Star (Cls p)) s ↔ all_chars p s = true.
Proof.
  induction s as [|c s IH]; cbn [all_chars].
  - split; [done|constructor].
  - rewrite andb_true_iff, <- IH. split.
    + intros (s1 & s2 & -> & (c' & [= -> ->] & Hp)%lang_cls_iff & H2)%lang_star_cons_inv.
      done.
    + intros [Hp Hs]. change (String c s) with (String c "" +:+ s).
      constructor; [by constructor|done].
Qed.

Lemma lang_plus_cls p s :
  lang (Plus (Cls p)) s ↔ s ≠ "" ∧ all_chars p s = true.
Proof.
  unfold Plus. rewrite lang_cat_iff. split.
  - intros (s1 & s2 & -> & (c & -> & Hp)%lang_cls_iff & H2%lang_star_cls).
    split; [done|]. cbn [all_chars]. rewrite app_cons, app_nil_l. cbn [all_chars].
    by rewrite Hp, H2.
  - intros [Hne Hall]. destruct s as [|c s]; [done|].
    cbn [all_chars] in Hall. apply andb_true_iff in Hall as [Hp Hs].
    exists (String c ""), s. split_and!; [done|by constructor|by apply lang_star_cls].
Qed.

Lemma lang_Dollar s : lang Dollar s ↔ s = "" ∨ s = String "010" "".
Proof.
  unfold Dollar, Chr. rewrite lang_alt_iff, lang_eps_iff, lang_cls_iff.
  split; (intros [?|H]; [by left|right]).
  - destruct H as (c & -> & ->%Ascii.eqb_eq). done.
  - exists "010"%char. by subst.
Qed.

End PyReFacts.

(** X17.  The format check accepts an ASCII topic exactly when it reads
    "[MP] ,Group G, Computer C : T" or "[Conceptual] ,Group G, Computer C : T",
    with G and C non-empty runs of digits and T non-empty without a line
    feed, followed by nothing or by one final line feed. *)
Theorem topic_ok_iff_shape (topic : string) :
  is_ascii topic = true →
  topic_ok topic = true ↔
  ∃ kind G C T tail,
    topic = "[" +:+ kind +:+ "] ,Group " +:+ G +:+ ", Computer " +:+ C
            +:+ " : " +:+ T +:+ tail
    ∧ (kind = "MP" ∨ kind = "Conceptual")
    ∧ G ≠ "" ∧ all_chars PyRe.digit G = true
    ∧ C ≠ "" ∧ all_chars PyRe.digit C = true
    ∧ T ≠ "" ∧ all_chars PyRe.dot T = true
    ∧ (tail = "" ∨ tail = nl).
Proof.
  intros _. unfold topic_ok, topic_regex. rewrite PyReFacts.fullmatch_lang. split.
  - intros (s1 & r1 & -> & ->%PyReFacts.lang_Lit & H)%PyReFacts.lang_cat_iff.
    apply PyReFacts.lang_cat_iff in H as (kind & r2 & -> & Hkind & H).
    apply PyReFacts.lang_cat_iff in H as (s3 & r3 & -> & ->%PyReFacts.lang_Lit & H).
    apply PyReFacts.lang_cat_iff in H as (G & r4 & -> & [HG1 HG2]%PyReFacts.lang_plus_cls & H).
    apply PyReFacts.lang_cat_iff in H as (s5 & r5 & -> & ->%PyReFacts.lang_Lit & H).
    apply PyReFacts.lang_cat_iff in H as (C & r6 & -> & [HC1 HC2]%PyReFacts.lang_plus_cls & H).
    apply PyReFacts.lang_cat_iff in H as (s7 & r7 & -> & ->%PyReFacts.lang_Lit & H).
    apply PyReFacts.lang_cat_iff in H as (T & tail & -> & [HT1 HT2]%PyReFacts.lang_plus_cls & H).
    apply PyReFacts.lang_Dollar in H.
    apply PyReFacts.lang_alt_iff in Hkind.
    rewrite !PyReFacts.lang_Lit in Hkind.
    by exists kind, G, C, T, tail.
  - intros (kind & G & C & T & tail & -> & Hkind & HG1 & HG2 & HC1 & HC2 & HT1 & HT2 & Htail).
    repeat (apply PyRe.lang_cat;
            [first [by apply PyReFacts.lang_Lit | by apply PyReFacts.lang_plus_cls | idtac]|]).
    + apply PyReFacts.lang_alt_iff. by rewrite !PyReFacts.lang_Lit.
    + by apply PyReFacts.lang_Dollar.
Qed.

Lemma check_message_format_snoc netids topics topic :
  check_message_format netids (topics ++ [topic])
  = check_topic netids (check_message_format netids topics) (length topics, topic).
Proof.
  unfold check_message_format. rewrite imap_app, foldl_app. cbn.
  by rewrite Nat.add_0_r.
Qed.

(** The message is the header followed by the reports, and there is a
    report exactly when some topic is not accepted. *)
Lemma check_message_format_header netids topics message :
  check_message_format netids topics = Some message →
  ∃ reports, message = format_header +:+ reports
             ∧ (reports = "" ↔ Forall (λ topic, topic_ok topic = true) topics).
Proof.
  revert message. induction topics as [|topic topics IH] using rev_ind; intros message.
  - intros [= <-]. exists "". by rewrite PyStrFacts.app_empty_r.
  - rewrite check_message_format_snoc.
    destruct (check_message_format netids topics) as [m|]; [|done].
    destruct (IH m eq_refl) as (reports & -> & Hrep). cbn [check_topic].
    destruct (topic_ok topic) eqn:Hok.
    + intros [= <-]. exists reports. split; [done|].
      rewrite Hrep, Forall_app, Forall_singleton. by split; [|intros [? _]].
    + destruct (netids !! length topics) as [netid_i|]; [|done].
      intros [= <-]. eexists. split; [apply PyStrFacts.app_assoc|]. split.
      * by intros [_ [=]]%PyReFacts.app_eq_nil.
      * intros [_ Hbad]%Forall_app. rewrite Forall_singleton in Hbad. congruence.
Qed.

Lemma topic_ok_iff_shape_witness :
  topic_ok "[MP] ,Group 12, Computer 3 : page fault" = true.
Proof.
  apply (topic_ok_iff_shape "[MP] ,Group 12, Computer 3 : page fault"); [reflexivity|].
  exists "MP", "12", "3", "page fault", "".
  split_and!; [reflexivity|by left|discriminate|reflexivity|discriminate
              |reflexivity|discriminate|reflexivity|by left].
Defined.

(** X18.  For ASCII topics, the message of the format check is the bare
    header -- which the check-queue command sends all the same -- exactly
    when every topic is accepted. *)
Theorem format_check_bare_header (netids topics : list string) :
  Forall (λ topic, is_ascii topic = true) topics →
  check_message_format netids topics = Some format_header ↔
  Forall (λ topic, topic_ok topic = true) topics.
Proof.
  intros _. split.
  - intros (reports & Heq & Hrep)%check_message_format_header. apply Hrep.
    rewrite <- (PyStrFacts.app_empty_r format_header) in Heq at 1.
    by apply (inj _) in Heq.
  - induction topics as [|topic topics IH] using rev_ind; [done|].
    intros [Hall Hok]%Forall_app. rewrite Forall_singleton in Hok.
    rewrite check_message_format_snoc, (IH Hall). cbn [check_topic]. by rewrite Hok.
Qed.

Lemma check_message_format_None_iff netids topics :
  check_message_format netids topics = None ↔
  ∃ i topic, topics !! i = Some topic ∧ topic_ok topic = false ∧ length netids ≤ i.
Proof.
  induction topics as [|topic topics IH] using rev_ind.
  - split; [done|]. by intros (i & topic & ? & _).
  - rewrite check_message_format_snoc.
    destruct (check_message_format netids topics) as [m|] eqn:Hm; cbn [check_topic].
    + assert (¬ ∃ i t, topics !! i = Some t ∧ topic_ok t = false ∧ length netids ≤ i)
        as Hnone by (rewrite <- IH; done).
      destruct (topic_ok topic) eqn:Hok;
        [|destruct (netids !! length topics) as [n|] eqn:Hn].
      * split; [done|]. intros (i & t & [[_ Ht]|[_ <-]]%lookup_snoc_Some & Hbad & Hi).
        -- destruct Hnone. by exists i, t.
        -- congruence.
      * split; [done|]. intros (i & t & [[_ Ht]|[-> <-]]%lookup_snoc_Some & Hbad & Hi).
        -- destruct Hnone. by exists i, t.
        -- apply lookup_lt_Some in Hn. lia.
      * split; [|done]. intros _. exists (length topics), topic.
        split_and!; [by apply lookup_snoc_Some; right|done|by apply lookup_ge_None].
    + split; [|done]. intros _.
      destruct (proj1 IH eq_refl) as (i & t & Ht & Hbad & Hi).
      exists i, t. split_and!; [|done..]. apply lookup_snoc_Some. left.
      split; [by eapply lookup_lt_Some|done].
Qed.

Lemma check_message_format_is_Some netids topics :
  length topics ≤ length netids → is_Some (check_message_format netids topics).
Proof.
  intros Hlen. destruct (check_message_format netids topics) eqn:Hm; [done|].
  apply check_message_format_None_iff in Hm as (i & t & Ht%lookup_lt_Some & _ & Hi).
  lia.
Qed.

Lemma format_check_bare_header_witness :
  check_message_format ["alice"]
    ["[MP] ,Group 12, Computer 3 : page fault"; "[Conceptual] ,Group 1, Computer 1 : x"]
  = Some format_header.
Proof.
  apply (format_check_bare_header ["alice"]
           ["[MP] ,Group 12, Computer 3 : page fault";
            "[Conceptual] ,Group 1, Computer 1 : x"]); by repeat constructor.
Defined.

(** X19.  For ASCII topics, the format check fails with an index error
    exactly when some topic that is not accepted sits at a position where
    [netids] has no entry.  With at most as many topics as identifiers it
    always gives a message. *)
Theorem format_check_index_error (netids topics : list string) :
  Forall (λ topic, is_ascii topic = true) topics →
  (check_message_format netids topics = None ↔
   ∃ i topic, topics !! i = Some topic ∧ topic_ok topic = false ∧ length netids ≤ i)
  ∧ (length topics ≤ length netids → is_Some (check_message_format netids topics)).
Proof.
  intros _.
  split; [apply check_message_format_None_iff|apply check_message_format_is_Some].
Qed.

Lemma format_check_index_error_witness :
  is_Some (check_message_format ["alice"; "bob"] ["help"])
  ∧ check_message_format ["alice"] ["[MP] ,Group 1, Computer 2 : a"; "help"] = None.
Proof.
  split.
  - destruct (format_check_index_error ["alice"; "bob"] ["help"]) as [_ Hfine];
      [by repeat constructor|].
    apply Hfine. simpl. lia.
  - destruct (format_check_index_error ["alice"]
                ["[MP] ,Group 1, Computer 2 : a"; "help"]) as [Hfails _];
      [by repeat constructor|].
    apply Hfails. exists 1, "help". split_and!; [reflexivity..|simpl; lia].
Defined.

(** ** Check-queue command *)

Example collect_netids_topics_ex :
  collect_netids_topics (λ _, true)
    [ask "alice"; Question None None; Question (Some (Asker (Some "zed"))) (Some "")]
  = Some (["alice"; "zed"], ["[MP] ,Group 1, Computer 2 : help"]).
Proof. vm_compute. reflexivity. Qed.

Lemma collect_netids_snoc questions q :
  collect_netids (questions ++ [q])
  = collect_netids questions ++ from_option (λ n, [n]) [] (netid_of q).
Proof.
  unfold collect_netids, netid_of. rewrite omap_app. by f_equal.
Qed.

Lemma collect_netids_topics_snoc has_topic_key questions q :
  collect_netids_topics has_topic_key (questions ++ [q])
  = collect_step has_topic_key (collect_netids_topics has_topic_key questions) q.
Proof. unfold collect_netids_topics. by rewrite foldl_snoc. Qed.

Lemma collect_step_cases has_topic_key netids topics q :
  collect_step has_topic_key (Some (netids, topics)) q
  = match netid_of q with
    | None => Some (netids, topics)
    | Some n =>
        if has_topic_key q
        then Some (netids ++ [n], topics ++ from_option (λ t, [t]) [] (topic_of q))
        else None
    end.
Proof.
  unfold collect_step, netid_of, topic_of.
  destruct (extract_netid q) as [n|]; [|done].
  destruct (PyStr.truthy n); [|done].
  destruct (has_topic_key q); [|done].
  destruct (topic q) as [t|]; cbn; [|by rewrite (right_id_L [] (++))].
  destruct (PyStr.truthy t); cbn; [done|by rewrite (right_id_L [] (++))].
Qed.

(** What the collecting loop gives when it does not fail. *)
Lemma collect_netids_topics_Some has_topic_key questions netids topics :
  collect_netids_topics has_topic_key questions = Some (netids, topics) →
  netids = collect_netids questions
  ∧ topics = omap topic_of (filter (λ q, is_Some (netid_of q)) questions)
  ∧ length topics ≤ length netids.
Proof.
  revert netids topics.
  induction questions as [|q questions IH] using rev_ind; intros netids topics.
  - by intros [= <- <-].
  - rewrite collect_netids_topics_snoc.
    destruct (collect_netids_topics has_topic_key questions) as [[ns ts]|]; [|done].
    destruct (IH ns ts eq_refl) as (-> & -> & Hlen).
    rewrite collect_step_cases, collect_netids_snoc, filter_app.
    destruct (netid_of q) as [n|] eqn:Hn.
    + rewrite filter_cons_True by (by rewrite Hn).
      destruct (has_topic_key q); [|done]. intros [= <- <-].
      rewrite omap_app. split_and!; [done|by f_equal|].
      rewrite !length_app. cbn [from_option length].
      destruct (topic_of q); simpl; lia.
    + rewrite filter_cons_False by (rewrite Hn; by intros []).
      intros [= <- <-]. cbn [from_option]. by rewrite filter_nil, !(right_id_L [] (++)).
Qed.

Lemma collect_netids_topics_None_iff has_topic_key questions :
  collect_netids_topics has_topic_key questions = None ↔
  ∃ q, q ∈ questions ∧ is_Some (netid_of q) ∧ has_topic_key q = false.
Proof.
  induction questions as [|q questions IH] using rev_ind.
  - split; [done|]. by intros (q & ?%elem_of_nil & _).
  - rewrite collect_netids_topics_snoc.
    destruct (collect_netids_topics has_topic_key questions) as [[ns ts]|].
    + assert (¬ ∃ q, q ∈ questions ∧ is_Some (netid_of q) ∧ has_topic_key q = false)
        as Hnone by (rewrite <- IH; done).
      rewrite collect_step_cases.
      destruct (netid_of q) as [n|] eqn:Hn; [destruct (has_topic_key q) eqn:Hkey|].
      * split; [done|]. intros (q' & [Hin| ->%list_elem_of_singleton]%elem_of_app & Hid & Hk).
        -- destruct Hnone. by exists q'.
        -- congruence.
      * split; [|done]. intros _. exists q. split_and!; [|by rewrite Hn|done].
        apply elem_of_app. right. left.
      * split; [done|]. intros (q' & [Hin| ->%list_elem_of_singleton]%elem_of_app & Hid & Hk).
        -- destruct Hnone. by exists q'.
        -- rewrite Hn in Hid. by destruct Hid.
    + split; [|done]. intros _. destruct (proj1 IH eq_refl) as (q' & Hin & Hid & Hk).
      exists q'. split_and!; [|done..]. apply elem_of_app. by left.
Qed.

(** X20.  The collecting loop of the check-queue command fails exactly when
    some entry that has a non-empty identifier has no "topic" key.
    Otherwise its identifiers are those the polling cycle collects, its
    topics are the non-empty topics of the entries with an identifier, and
    there are at most as many topics as identifiers. *)
Theorem collect_fails_iff_topic_key_missing (has_topic_key : question → bool)
    (questions : list question) :
  (collect_netids_topics has_topic_key questions = None ↔
   ∃ q, q ∈ questions ∧ is_Some (netid_of q) ∧ has_topic_key q = false)
  ∧ ∀ netids topics,
      collect_netids_topics has_topic_key questions = Some (netids, topics) →
      netids = collect_netids questions
      ∧ topics = omap topic_of (filter (λ q, is_Some (netid_of q)) questions)
      ∧ length topics ≤ length netids.
Proof.
  split; [apply collect_netids_topics_None_iff|].
  intros netids topics. apply collect_netids_topics_Some.
Qed.

(** X21.  The format check never fails with an index error on the two
    lists that the collecting loop of the check-queue command hands it:
    there are at most as many topics as identifiers, so [netids[i]] is
    there for every topic. *)
Theorem format_check_after_collect (has_topic_key : question → bool)
    (questions : list question) (netids topics : list string) :
  collect_netids_topics has_topic_key questions = Some (netids, topics) →
  is_Some (check_message_format netids topics).
Proof.
  intros (_ & _ & Hlen)%collect_netids_topics_Some.
  by apply check_message_format_is_Some.
Qed.

Lemma format_check_after_collect_witness :
  is_Some (check_message_format ["alice"; "zed"] ["help me"]).
Proof.
  apply (format_check_after_collect (λ _, true)
           [Question (Some (Asker (Some "alice"))) None;
            Question (Some (Asker (Some "zed"))) (Some "help me")]).
  reflexivity.
Defined.

(** X22.  A topic is reported under the identifier at its own position in
    the list of topics, which need not be its asker: when the first
    identified entry has no topic and the second has an ASCII one that is
    not accepted, the report is "Question 0", with the first entry's
    identifier. *)
Theorem report_names_earlier_asker (has_topic_key : question → bool)
    (q1 q2 : question) (n1 n2 t2 : string) :
  netid_of q1 = Some n1 → topic_of q1 = None → has_topic_key q1 = true →
  netid_of q2 = Some n2 → topic_of q2 = Some t2 → has_topic_key q2 = true →
  is_ascii t2 = true → topic_ok t2 = false →
  collect_netids_topics has_topic_key [q1; q2] = Some ([n1; n2], [t2])
  ∧ check_message_format [n1; n2] [t2]
    = Some (format_header
            +:+ "Question 0 with netid " +:+ n1 +:+ " has wrong format: " +:+ t2).
Proof.
  intros Hn1 Ht1 Hk1 Hn2 Ht2 Hk2 _ Hbad. split.
  - unfold collect_netids_topics. cbn [foldl].
    rewrite collect_step_cases, Hn1, Hk1, Ht1. cbn [from_option app].
    by rewrite collect_step_cases, Hn2, Hk2, Ht2.
  - unfold check_message_format. cbn [imap foldl check_topic]. by rewrite Hbad.
Qed.

Lemma report_names_earlier_asker_witness :
  check_message_format ["alice"; "zed"] ["help me"]
  = Some (format_header
          +:+ "Question 0 with netid " +:+ "alice" +:+ " has wrong format: " +:+ "help me").
Proof.
  apply (report_names_earlier_asker (λ _, true)
           (Question (Some (Asker (Some "alice"))) None)
           (Question (Some (Asker (Some "zed"))) (Some "help me"))
           "alice" "zed" "help me"); reflexivity.
Defined.

(** X23.  When every entry with an identifier has a non-empty topic, the
    two lists of the check-queue command line up: they have the same
    length, and the i-th identifier and the i-th topic come from the same
    entry. *)
Theorem topics_line_up (has_topic_key : question → bool)
    (questions : list question) (netids topics : list string) :
  (∀ q, q ∈ questions → is_Some (netid_of q) → is_Some (topic_of q)) →
  collect_netids_topics has_topic_key questions = Some (netids, topics) →
  length topics = length netids
  ∧ zip netids topics
    = omap (λ q, match netid_of q, topic_of q with
                 | Some n, Some t => Some (n, t)
                 | _, _ => None
                 end) questions.
Proof.
  intros Hall (-> & -> & _)%collect_netids_topics_Some.
  change (collect_netids questions) with (omap netid_of questions).
  induction questions as [|q questions IH]; [done|].
  destruct IH as [IH1 IH2].
  { intros q' Hin. apply Hall. by right. }
  specialize (Hall q (list_elem_of_here _ _)). cbn [omap list_omap].
  fold (omap netid_of questions).
  destruct (netid_of q) as [n|] eqn:Hn.
  - rewrite filter_cons_True by (by rewrite Hn).
    destruct Hall as [t Ht]; [done|]. cbn [omap list_omap]. rewrite Ht.
    fold (omap topic_of (filter (λ q, is_Some (netid_of q)) questions)).
    cbn [length zip zip_with]. split; [by rewrite IH1|by rewrite IH2].
  - rewrite filter_cons_False by (rewrite Hn; by intros []). done.
Qed.

Lemma topics_line_up_witness :
  zip ["alice"; "bob"]
    ["[MP] ,Group 1, Computer 2 : help"; "[MP] ,Group 1, Computer 2 : help"]
  = omap (λ q, match netid_of q, topic_of q with
               | Some n, Some t => Some (n, t)
               | _, _ => None
               end) [ask "alice"; Question None None; ask "bob"].
Proof.
  apply (topics_line_up (λ _, true) [ask "alice"; Question None None; ask "bob"]).
  - intros q Hin Hid. repeat (apply elem_of_cons in Hin as [->|Hin]).
    + by eexists.
    + by destruct Hid.
    + by eexists.
    + by apply elem_of_nil in Hin.
  - reflexivity.
Defined.

(** ** More on the normal form of identifiers *)

Lemma lstrip_spaces s : all_chars PyStr.isspace s = true → PyStr.lstrip s = "".
Proof.
  induction s as [|c s IH]; [done|]. cbn [all_chars PyStr.lstrip].
  intros [-> Hs]%andb_true_iff. by apply IH.
Qed.

Lemma rstrip_spaces s : all_chars PyStr.isspace s = true → PyStr.rstrip s = "".
Proof.
  induction s as [|c s IH]; [done|]. cbn [all_chars PyStr.rstrip].
  intros [-> Hs]%andb_true_iff. by rewrite IH.
Qed.

Lemma lstrip_app_spaces_l l s :
  all_chars PyStr.isspace l = true → PyStr.lstrip (l +:+ s) = PyStr.lstrip s.
Proof.
  induction l as [|c l IH]; [done|]. cbn [all_chars].
  intros [Hc Hl]%andb_true_iff. rewrite PyReFacts.app_cons. cbn [PyStr.lstrip].
  rewrite Hc. by apply IH.
Qed.

Lemma lstrip_app_spaces_r s r :
  all_chars PyStr.isspace r = true →
  PyStr.lstrip (s +:+ r)
  = match PyStr.lstrip s with
    | EmptyString => EmptyString
    | String c t => String c t +:+ r
    end.
Proof.
  intros Hr. induction s as [|c s IH].
  - rewrite PyReFacts.app_nil_l. by apply lstrip_spaces.
  - rewrite PyReFacts.app_cons. cbn [PyStr.lstrip]. by destruct (PyStr.isspace c).
Qed.

Lemma rstrip_app_spaces_r s r :
  all_chars PyStr.isspace r = true → PyStr.rstrip (s +:+ r) = PyStr.rstrip s.
Proof.
  intros Hr. induction s as [|c s IH].
  - rewrite PyReFacts.app_nil_l. by apply rstrip_spaces.
  - rewrite PyReFacts.app_cons. cbn [PyStr.rstrip]. by rewrite IH.
Qed.

(** X24.  The roster's normal form does not see white space around a cell
    nor the case of its letters: padding a cell with white space on either
    side, or lower-casing it beforehand, gives the same member. *)
Theorem normalize_ignores_padding_and_case (l cell r : string) :
  all_chars PyStr.isspace l = true →
  all_chars PyStr.isspace r = true →
  normalize (l +:+ cell +:+ r) = normalize cell
  ∧ normalize (PyStr.lower cell) = normalize cell.
Proof.
  intros Hl Hr. unfold normalize. split.
  - f_equal. unfold PyStr.strip.
    rewrite lstrip_app_spaces_l, lstrip_app_spaces_r by done.
    destruct (PyStr.lstrip cell); [done|]. by apply rstrip_app_spaces_r.
  - by rewrite PyStrFacts.lower_strip, PyStrFacts.lower_idemp.
Qed.

Lemma normalize_ignores_padding_and_case_witness :
  normalize ("  " +:+ "Abc123" +:+ " ") = normalize "Abc123"
  ∧ normalize (PyStr.lower "Abc123") = normalize "Abc123".
Proof.
  apply (normalize_ignores_padding_and_case "  " "Abc123" " "); reflexivity.
Defined.
